(** * Unit-normalization resolver of [pylifttk/normalizations.py]

    Shallow embedding of [_find_normalization_path] (with its nested [dfs])
    and of [normalize] (with its nested [apply_direct_normalization]),
    followed by the properties of the resolver.

    Conventions.
    - A Python [str] is a [string]; a value that may be [None] is an
      [option].
    - The [graph] dictionary is a [gmap string (list string)]; only
      [graph.get] and item assignment are used on it, so its iteration
      order plays no role.
    - A record's ["mapping"] dictionary is iterated with [.items()], so its
      insertion order is observable: it is an association list whose keys
      are pairwise distinct, in insertion order.
    - A call either returns a value or raises; recursion of [dfs] is driven
      by a fuel counter, and running out of it is a third outcome that the
      termination results show does not occur. *)

From Stdlib Require Import Ascii.
From stdpp Require Import gmap strings list fin_maps pretty.

Open Scope string_scope.
Open Scope list_scope.

#[local] Set Warnings "-clear-no-such-hyp".

(** ** Outcomes *)

Inductive exn : Type :=
| TypeError
| IndexError.

Inductive outcome (A : Type) : Type :=
| Ok (a : A)
| Raised (e : exn)
| OutOfFuel.

Arguments Ok {A} a.
Arguments Raised {A} e.
Arguments OutOfFuel {A}.

(** Sequencing: an exception (or the exhausted budget) of the first
    computation is the outcome of the whole. *)
#[global] Instance outcome_bind : MBind outcome := λ A B k m,
  match m with
  | Ok a => k a
  | Raised e => Raised e
  | OutOfFuel => OutOfFuel
  end.

(** ** Data model *)

(** One element of [normalizations]: a dictionary with the three keys
    ["source"], ["destination"] and ["mapping"]. *)
Record normalization : Type := mkNormalization {
  source : string;
  destination : string;
  mapping : list (string * string)
}.

(** [d.get(word)] on a dictionary with string keys: [None] is never a key. *)
Fixpoint dict_get (d : list (string * string)) (word : option string)
  : option string :=
  match d with
  | [] => None
  | (key, value) :: d' =>
      if bool_decide (Some key = word) then Some value else dict_get d' word
  end.

(** [for key, value in d.items(): if value == word: return key];
    [None] when the loop ends without returning. *)
Fixpoint first_key_of (d : list (string * string)) (word : option string)
  : option string :=
  match d with
  | [] => None
  | (key, value) :: d' =>
      if bool_decide (Some value = word) then Some key else first_key_of d' word
  end.

(** ** [_find_normalization_path] *)

(** One iteration of the graph-building loop. The loop assigns to the
    function's own parameters [src] and [dst], so they are part of the
    loop state. *)
Definition add_edge (st : gmap string (list string) * string * string)
  (n : normalization) : gmap string (list string) * string * string :=
  let '(graph, _, _) := st in
  let src := source n in
  let dst := destination n in
  let graph := <[src := default [] (graph !! src) ++ [dst]]> graph in
  let graph := <[dst := default [] (graph !! dst) ++ [src]]> graph in
  (graph, src, dst).

Definition build_graph (normalizations : list normalization) (src dst : string)
  : gmap string (list string) * string * string :=
  foldl add_edge (∅, src, dst) normalizations.

(** [for p in possibilities: ret_path = visit p; if ret_path is not None:
    return ret_path]; falls off the end with [None]. *)
Fixpoint first_path (visit : string → outcome (option (list string)))
  (possibilities : list string) : outcome (option (list string)) :=
  match possibilities with
  | [] => Ok None
  | p :: rest =>
      ret_path ← visit p;
      match ret_path with
      | Some _ => Ok ret_path
      | None => first_path visit rest
      end
  end.

(** The nested function [dfs], closed over [graph]. [path + [end]] with
    [path] still [None] raises [TypeError]. *)
Fixpoint dfs (fuel : nat) (graph : gmap string (list string))
  (start end_ : string) (path : option (list string))
  : outcome (option (list string)) :=
  match fuel with
  | O => OutOfFuel
  | S fuel' =>
      if bool_decide (start = end_) then
        match path with
        | None => Raised TypeError
        | Some path => Ok (Some (path ++ [end_]))
        end
      else
        let explore (path : list string) :=
          let path := path ++ [start] in
          let possibilities := default [] (graph !! start) in
          first_path (fun p => dfs fuel' graph p end_ (Some path)) possibilities in
        match path with
        | None => explore []
        | Some path =>
            if bool_decide (start ∈ path) then Ok None else explore path
        end
  end.

(** The unit names occurring in the records. *)
Definition units (normalizations : list normalization) : gset string :=
  list_to_set (normalizations ≫= (fun n => [source n; destination n])).

(** Recursion budget given to the top-level call of [dfs]. *)
Definition budget (normalizations : list normalization) : nat :=
  size (units normalizations) + 2.

Definition find_normalization_path (normalizations : list normalization)
  (src dst : string) : outcome (option (list string)) :=
  let '(graph, src, dst) := build_graph normalizations src dst in
  dfs (budget normalizations) graph src dst None.

(** ** [normalize] *)

(** The nested function [apply_direct_normalization]. [word] may be [None]
    when an earlier hop of the walk found nothing. *)
Fixpoint apply_direct_normalization (normalizations : list normalization)
  (word : option string) (src dst : string) : option string :=
  match normalizations with
  | [] => None
  | n :: rest =>
      if bool_decide (src = source n) && bool_decide (dst = destination n) then
        dict_get (mapping n) word
      else if bool_decide (dst = source n) && bool_decide (src = destination n) then
        match first_key_of (mapping n) word with
        | Some key => Some key
        | None => apply_direct_normalization rest word src dst
        end
      else apply_direct_normalization rest word src dst
  end.

(** [path[i]]: an index out of range raises [IndexError]. *)
Definition subscript (path : list string) (i : nat) : outcome string :=
  match path !! i with
  | Some x => Ok x
  | None => Raised IndexError
  end.

(** One iteration of [for i in range(len(normalization_path) - 1)]. *)
Definition hop (normalizations : list normalization) (path : list string)
  (result : outcome (option string)) (i : nat) : outcome (option string) :=
  result ← result;
  src ← subscript path i;
  dst ← subscript path (i + 1);
  Ok (apply_direct_normalization normalizations result src dst).

Definition walk (normalizations : list normalization) (path : list string)
  (word : option string) : outcome (option string) :=
  foldl (hop normalizations path) (Ok word) (seq 0 (length path - 1)).

Definition normalize (normalizations : list normalization)
  (word src dst : string) (echo_word : bool) : outcome (option string) :=
  normalization_path ← find_normalization_path normalizations src dst;
  match normalization_path with
  | None => Ok None
  | Some normalization_path =>
      result ← walk normalizations normalization_path (Some word);
      match result with
      | None => if echo_word then Ok (Some word) else Ok result
      | Some _ => Ok result
      end
  end.

(** ** Notions used in the statements *)

(** The dictionary [graph] once the loop has run; it does not depend on the
    values [src] and [dst] had before the loop. *)
Definition graph_of (normalizations : list normalization)
  : gmap string (list string) :=
  (build_graph normalizations "" "").1.1.

(** [graph.get(a, list())]. *)
Definition neighbours (graph : gmap string (list string)) (a : string)
  : list string :=
  default [] (graph !! a).

(** Two unit names are linked when some record declares them as its two
    ends, in either order. *)
Definition linked (normalizations : list normalization) (a b : string) : Prop :=
  ∃ n, n ∈ normalizations ∧
    ((source n = a ∧ destination n = b) ∨ (source n = b ∧ destination n = a)).

(** A connecting chain of records between two unit names. *)
Definition connected (normalizations : list normalization)
  : string → string → Prop :=
  rtc (linked normalizations).

(** The values of [src] and [dst] when the loop is over. *)
Definition final_src (normalizations : list normalization) (src : string)
  : string :=
  from_option source src (last normalizations).
Definition final_dst (normalizations : list normalization) (dst : string)
  : string :=
  from_option destination dst (last normalizations).

(** Consecutive elements of a path are adjacent in the graph. *)
Fixpoint is_chain (graph : gmap string (list string)) (q : list string) : Prop :=
  match q with
  | a :: (b :: _) as q' => b ∈ neighbours graph a ∧ is_chain graph q'
  | _ => True
  end.

(** The walk read off the path itself: each pair of consecutive nodes is
    one hop, and a hop's result is the next hop's word. *)
Fixpoint hops (normalizations : list normalization) (path : list string)
  (result : option string) : option string :=
  match path with
  | src :: (dst :: _) as rest =>
      hops normalizations rest
        (apply_direct_normalization normalizations result src dst)
  | _ => result
  end.

(** Record [n] declares the pair of units [(a, b)], in this order. *)
Definition declares (n : normalization) (a b : string) : Prop :=
  a = source n ∧ b = destination n.

#[global] Instance declares_dec n a b : Decision (declares n a b).
Proof. unfold declares. apply _. Defined.

(** The direct conversion as the specification words it: only the first
    record that declares [(src, dst)] or [(dst, src)] is consulted, and its
    answer, present or absent, is the result. *)
Definition apply_first_record_only (normalizations : list normalization)
  (word : option string) (src dst : string) : option string :=
  match list_find (λ n, declares n src dst ∨ declares n dst src) normalizations with
  | Some (_, n) =>
      if decide (declares n src dst) then dict_get (mapping n) word
      else first_key_of (mapping n) word
  | None => None
  end.

(** ** Sample configurations *)

Definition rec_FC : normalization :=
  mkNormalization "F" "C" [("32", "0"); ("212", "100")].
Definition rec_CK : normalization :=
  mkNormalization "C" "K" [("0", "273")].
Definition rec_CF_ax : normalization :=
  mkNormalization "C" "F" [("a", "x")].
Definition rec_FC_yz : normalization :=
  mkNormalization "F" "C" [("y", "z")].

Example path_single_record : find_normalization_path [rec_FC] "F" "C" = Ok (Some ["F"; "C"]).
Proof. vm_compute. reflexivity. Qed.
Example normalize_forward : normalize [rec_FC] "32" "F" "C" false = Ok (Some "0").
Proof. vm_compute. reflexivity. Qed.
Example normalize_reverse_request : normalize [rec_FC] "0" "C" "F" false = Ok None.
Proof. vm_compute. reflexivity. Qed.
Example normalize_two_records : normalize [rec_FC; rec_CK] "32" "F" "K" false = Ok None.
Proof. vm_compute. reflexivity. Qed.
Example path_same_unit_no_records : find_normalization_path [] "A" "A" = Raised TypeError.
Proof. vm_compute. reflexivity. Qed.

(** ** The graph built from the records *)

Lemma build_graph_snoc recs n src dst :
  build_graph (recs ++ [n]) src dst =
  add_edge (build_graph recs src dst) n.
Proof. unfold build_graph. by rewrite foldl_snoc. Qed.

Lemma build_graph_spec recs src dst :
  build_graph recs src dst =
  (graph_of recs, final_src recs src, final_dst recs dst).
Proof.
  unfold graph_of, final_src, final_dst.
  induction recs as [|n recs IH] using rev_ind; [done|].
  rewrite !build_graph_snoc, last_snoc. simpl.
  rewrite IH. clear IH.
  destruct (build_graph recs "" "") as [[g0 s0] d0] eqn:E. simpl.
  reflexivity.
Qed.

Lemma graph_of_snoc recs n :
  graph_of (recs ++ [n]) =
  let g := <[source n := neighbours (graph_of recs) (source n) ++ [destination n]]>
             (graph_of recs) in
  <[destination n := neighbours g (destination n) ++ [source n]]> g.
Proof.
  unfold graph_of at 1. rewrite build_graph_snoc.
  rewrite (build_graph_spec recs). reflexivity.
Qed.

Lemma neighbours_insert g a l b :
  neighbours (<[a := l]> g) b = if decide (a = b) then l else neighbours g b.
Proof.
  unfold neighbours. rewrite lookup_insert.
  by destruct (decide (a = b)).
Qed.

(** An adjacency entry is exactly a link declared by some record. *)
Lemma elem_of_neighbours_graph_of recs a b :
  b ∈ neighbours (graph_of recs) a ↔ linked recs a b.
Proof.
  induction recs as [|n recs IH] using rev_ind.
  - unfold neighbours, graph_of, linked. simpl. rewrite lookup_empty. simpl.
    split; [by intros ?%elem_of_nil|]. intros (n & Hn & _). by apply elem_of_nil in Hn.
  - rewrite graph_of_snoc. cbv zeta.
    rewrite !neighbours_insert.
    assert (Hl : linked (recs ++ [n]) a b ↔
                 linked recs a b ∨
                 (source n = a ∧ destination n = b) ∨
                 (source n = b ∧ destination n = a)).
    { unfold linked. split.
      - intros (m & Hm & H). apply elem_of_app in Hm as [Hm|Hm].
        + left. eauto.
        + apply list_elem_of_singleton in Hm as ->. by right.
      - intros [(m & Hm & H)|H].
        + exists m. split; [apply elem_of_app; by left|done].
        + exists n. split; [apply elem_of_app; right; by apply list_elem_of_singleton|done]. }
    rewrite Hl, <- IH. clear Hl IH.
    destruct n as [s d m]; simpl.
    destruct (decide (d = a)) as [->|Hd], (decide (s = a)) as [->|Hs];
      try destruct (decide (a = a)) as [_|[]]; try done;
      try destruct (decide (s = a)) as [->|_]; try done;
      try destruct (decide (a = d)) as [->|_]; try done;
      rewrite ?elem_of_app, ?list_elem_of_singleton;
      intuition congruence.
Qed.

Lemma linked_sym recs a b : linked recs a b → linked recs b a.
Proof. intros (n & Hn & H). exists n. split; [done|]. tauto. Qed.

Lemma linked_units recs a b : linked recs a b → a ∈ units recs ∧ b ∈ units recs.
Proof.
  intros (n & Hn & H). unfold units.
  rewrite !elem_of_list_to_set, !list_elem_of_bind.
  destruct H as [[<- <-]|[<- <-]]; split; exists n; (split; [|done]);
    rewrite ?elem_of_cons; auto.
Qed.

(** ** The neighbour loop *)

Section neighbour_loop.
Context (visit : string → outcome (option (list string))).

Lemma first_path_Some ps r :
  first_path visit ps = Ok (Some r) → ∃ p, p ∈ ps ∧ visit p = Ok (Some r).
Proof.
  induction ps as [|p ps IH]; simpl; [done|].
  destruct (visit p) as [[r'|]| |] eqn:E; simpl; try done.
  - intros [= <-]. exists p. split; [apply list_elem_of_here|done].
  - intros (q & Hq & Hv)%IH. exists q. split; [by apply list_elem_of_further|done].
Qed.

Lemma first_path_terminates ps :
  (∀ p, p ∈ ps → visit p ≠ OutOfFuel) → first_path visit ps ≠ OutOfFuel.
Proof.
  induction ps as [|p ps IH]; simpl; intros H; [done|].
  pose proof (H p (list_elem_of_here _ _)) as Hp.
  destruct (visit p) as [[r'|]| |]; simpl; try done.
  apply IH. intros q Hq. apply H. by apply list_elem_of_further.
Qed.

Lemma first_path_no_raise ps e :
  (∀ p, p ∈ ps → visit p ≠ Raised e) → first_path visit ps ≠ Raised e.
Proof.
  induction ps as [|p ps IH]; simpl; intros H; [done|].
  pose proof (H p (list_elem_of_here _ _)) as Hp.
  destruct (visit p) as [[r'|]|e'|]; simpl; try done.
  apply IH. intros q Hq. apply H. by apply list_elem_of_further.
Qed.

(** A second visitor that agrees with [visit] wherever [visit] has a
    result gives the same result for the loop. *)
Lemma first_path_agree visit' ps :
  (∀ p, p ∈ ps → visit p ≠ OutOfFuel → visit' p = visit p) →
  first_path visit ps ≠ OutOfFuel →
  first_path visit' ps = first_path visit ps.
Proof.
  induction ps as [|p ps IH]; simpl; intros H Hne; [done|].
  pose proof (H p (list_elem_of_here _ _)) as Hp.
  destruct (visit p) as [[r'|]|e'|] eqn:E; simpl in *; try done;
    rewrite Hp by done; simpl; try done.
  apply IH; [|done]. intros q Hq. apply H. by apply list_elem_of_further.
Qed.
End neighbour_loop.

(** ** The depth-first search *)

Section search.
Context (graph : gmap string (list string)) (end_ : string).

Lemma dfs_S fuel start path :
  dfs (S fuel) graph start end_ path =
  if bool_decide (start = end_) then
    match path with
    | None => Raised TypeError
    | Some path => Ok (Some (path ++ [end_]))
    end
  else
    match path with
    | None =>
        first_path (fun p => dfs fuel graph p end_ (Some ([] ++ [start])))
          (neighbours graph start)
    | Some path =>
        if bool_decide (start ∈ path) then Ok None
        else first_path (fun p => dfs fuel graph p end_ (Some (path ++ [start])))
               (neighbours graph start)
    end.
Proof. reflexivity. Qed.

(** Only the outermost call, whose [path] is still [None], can raise. *)
Lemma dfs_inner_no_raise fuel start path e :
  dfs fuel graph start end_ (Some path) ≠ Raised e.
Proof.
  revert start path. induction fuel as [|fuel IH]; intros start path; [done|].
  rewrite dfs_S. repeat case_bool_decide; try done.
  apply first_path_no_raise. intros p _. apply IH.
Qed.

(** A returned path extends the in-progress path by a chain of adjacent
    nodes from [start] to [end_], and repeats no node. *)
Lemma dfs_inner_sound fuel start path r :
  dfs fuel graph start end_ (Some path) = Ok (Some r) →
  ∃ q, r = path ++ start :: q ∧
       is_chain graph (start :: q) ∧
       last (start :: q) = Some end_ ∧
       (NoDup path → end_ ∉ path → NoDup r).
Proof.
  revert start path. induction fuel as [|fuel IH]; intros start path; [done|].
  rewrite dfs_S. repeat case_bool_decide; try done.
  - intros [= <-]. subst start. exists []. repeat split; try done.
    intros Hnd Hnin. apply NoDup_app. repeat split; try done.
    + intros x Hx ->%list_elem_of_singleton. done.
    + apply NoDup_singleton.
  - intros (p & Hp & Hdfs)%first_path_Some.
    apply IH in Hdfs as (q & -> & Hch & Hlast & Hnd).
    exists (p :: q). repeat split; try done.
    + by rewrite <- app_assoc.
    + intros Hnd' Hnin. apply Hnd.
      * apply NoDup_app. repeat split; try done.
        -- intros x Hx ->%list_elem_of_singleton. done.
        -- apply NoDup_singleton.
      * rewrite elem_of_app, list_elem_of_singleton. intros [?|?]; [done|]. by subst.
Qed.

(** The same for the outermost call. *)
Lemma dfs_sound fuel start r :
  dfs fuel graph start end_ None = Ok (Some r) →
  ∃ p q, r = start :: p :: q ∧ is_chain graph r ∧ last r = Some end_ ∧
         NoDup r ∧ start ≠ end_.
Proof.
  destruct fuel as [|fuel]; [done|].
  rewrite dfs_S. case_bool_decide; [done|].
  intros (p & Hp & Hdfs)%first_path_Some.
  apply dfs_inner_sound in Hdfs as (q & -> & Hch & Hlast & Hnd).
  exists p, q. simpl. repeat split; try done.
  apply Hnd; [apply NoDup_singleton|].
  intros ?%list_elem_of_singleton. by subst.
Qed.

(** More fuel does not change a result. *)
Lemma dfs_fuel_mono (fuel fuel' : nat) start path :
  (fuel ≤ fuel')%nat →
  dfs fuel graph start end_ path ≠ OutOfFuel →
  dfs fuel' graph start end_ path = dfs fuel graph start end_ path.
Proof.
  revert fuel' start path. induction fuel as [|fuel IH];
    intros fuel' start path Hle; [done|].
  destruct fuel' as [|fuel']; [lia|].
  rewrite !dfs_S. case_bool_decide; [done|].
  destruct path as [path|]; [case_bool_decide; [done|]|];
    intros Hne; (apply first_path_agree; [|done]);
    intros p _; apply IH; lia.
Qed.
End search.

(** ** Termination of the search *)

(** Each expansion adds to the in-progress path a node of [U] that was
    not in it, so the nodes of [U] outside the path strictly decrease. *)
Lemma unvisited_decreases (U : gset string) (path : list string) (start : string) :
  start ∈ U → start ∉ path →
  (size (U ∖ list_to_set (path ++ [start])) < size (U ∖ list_to_set path))%nat.
Proof.
  intros HU Hnin. apply subset_size.
  rewrite list_to_set_app_L. simpl.
  apply strict_spec_alt. split; [set_solver|].
  intros Heq. assert (start ∈ U ∖ list_to_set path) as Hin.
  { apply elem_of_difference. split; [done|]. by rewrite elem_of_list_to_set. }
  rewrite <- Heq in Hin. set_solver.
Qed.

Section termination.
Context (graph : gmap string (list string)) (end_ : string).
Context (U : gset string).
Hypothesis closed : ∀ a b, b ∈ neighbours graph a → b ∈ U.

Lemma dfs_inner_terminates (fuel : nat) start path :
  start ∈ U →
  (size (U ∖ list_to_set path) < fuel)%nat →
  dfs fuel graph start end_ (Some path) ≠ OutOfFuel.
Proof.
  revert start path. induction fuel as [|fuel IH];
    intros start path HU Hlt; [lia|].
  rewrite dfs_S. case_bool_decide as Hend; [done|].
  case_bool_decide as Hin; [done|].
  apply first_path_terminates. intros p Hp. apply IH.
  - by eapply closed.
  - pose proof (unvisited_decreases U path start HU Hin). lia.
Qed.

Lemma dfs_terminates (fuel : nat) start :
  (size U + 2 ≤ fuel)%nat →
  dfs fuel graph start end_ None ≠ OutOfFuel.
Proof.
  destruct fuel as [|fuel]; [lia|]. intros Hle.
  rewrite dfs_S. case_bool_decide; [done|].
  apply first_path_terminates. intros p Hp.
  apply dfs_inner_terminates; [by eapply closed|].
  assert (size (U ∖ list_to_set ([] ++ [start])) ≤ size U)%nat; [|lia].
  apply subseteq_size. set_solver.
Qed.
End termination.

Lemma find_normalization_path_unfold recs src dst :
  find_normalization_path recs src dst =
  dfs (budget recs) (graph_of recs) (final_src recs src) (final_dst recs dst) None.
Proof.
  unfold find_normalization_path. by rewrite build_graph_spec.
Qed.

Lemma graph_of_closed recs a b :
  b ∈ neighbours (graph_of recs) a → b ∈ units recs.
Proof. intros H%elem_of_neighbours_graph_of. by apply linked_units in H as [_ ?]. Qed.

Lemma find_normalization_path_terminates recs src dst :
  find_normalization_path recs src dst ≠ OutOfFuel.
Proof.
  rewrite find_normalization_path_unfold.
  apply dfs_terminates with (U := units recs).
  - apply graph_of_closed.
  - unfold budget. lia.
Qed.

(** ** The pairwise walk *)

Lemma subscript_app_length pre a (rest : list string) :
  subscript (pre ++ a :: rest) (length pre) = Ok a.
Proof. unfold subscript. by rewrite list_lookup_middle. Qed.

(** The indexed loop never subscripts out of range, and computes [hops]. *)
Lemma walk_from recs pre path word :
  foldl (hop recs (pre ++ path)) (Ok word)
    (seq (length pre) (length path - 1)) =
  Ok (hops recs path word).
Proof.
  revert pre word. induction path as [|a [|b rest] IH]; intros pre word; try done.
  replace (length (a :: b :: rest) - 1)%nat with (S (length rest))
    by (simpl; lia).
  rewrite <- cons_seq. cbn [foldl].
  assert (hop recs (pre ++ a :: b :: rest) (Ok word) (length pre) =
          Ok (apply_direct_normalization recs word a b)) as ->.
  { unfold hop. cbn [mbind outcome_bind].
    rewrite subscript_app_length. cbn [mbind outcome_bind].
    replace (length pre + 1)%nat with (length (pre ++ [a])) by (rewrite length_app; simpl; lia).
    rewrite (cons_middle a pre), app_assoc, subscript_app_length. done. }
  specialize (IH (pre ++ [a]) (apply_direct_normalization recs word a b)).
  rewrite <- app_assoc, length_app in IH. cbn [app length] in IH.
  replace (length pre + 1)%nat with (S (length pre)) in IH by lia.
  replace (S (length rest) - 1)%nat with (length rest) in IH by lia.
  exact IH.
Qed.

Lemma walk_hops recs path word :
  walk recs path word = Ok (hops recs path word).
Proof. apply (walk_from recs [] path word). Qed.

(** [normalize] in terms of the path and the walk along it. *)
Lemma normalize_unfold recs word src dst echo_word :
  normalize recs word src dst echo_word =
  match find_normalization_path recs src dst with
  | Ok None => Ok None
  | Ok (Some path) =>
      match hops recs path (Some word) with
      | None => if echo_word then Ok (Some word) else Ok None
      | Some w => Ok (Some w)
      end
  | Raised e => Raised e
  | OutOfFuel => OutOfFuel
  end.
Proof.
  unfold normalize.
  destruct (find_normalization_path recs src dst) as [[path|]|e|]; try done.
  cbn [mbind outcome_bind]. rewrite walk_hops. cbn [mbind outcome_bind].
  by destruct (hops recs path (Some word)).
Qed.

(** ** What the search returns *)

Lemma first_path_finds (visit : string → outcome (option (list string))) ps p r0 :
  p ∈ ps → visit p = Ok (Some r0) →
  (∀ q, q ∈ ps → ∃ o, visit q = Ok o) →
  ∃ r, first_path visit ps = Ok (Some r).
Proof.
  induction ps as [|q ps IH]; intros Hp Hv Hall; [by apply elem_of_nil in Hp|].
  simpl. destruct (Hall q (list_elem_of_here _ _)) as [[r|] Hq];
    rewrite Hq; cbn [mbind outcome_bind]; [by eexists|].
  apply IH; try done.
  - apply elem_of_cons in Hp as [->|Hp]; [congruence|done].
  - intros q' Hq'. apply Hall. by apply list_elem_of_further.
Qed.

Section search_results.
Context (graph : gmap string (list string)) (end_ : string).
Context (U : gset string).
Hypothesis closed : ∀ a b, b ∈ neighbours graph a → b ∈ U.

(** The outermost call raises exactly when it is asked for a path from a
    node to itself. *)
Lemma dfs_raises (fuel : nat) start e :
  dfs (S fuel) graph start end_ None = Raised e ↔ start = end_ ∧ e = TypeError.
Proof.
  rewrite dfs_S. case_bool_decide as Heq.
  - split; [intros [= <-]; done|intros [_ ->]; done].
  - split; [|intros [? _]; done].
    intros H. exfalso. revert H. apply first_path_no_raise.
    intros p _. apply dfs_inner_no_raise.
Qed.

(** When the target is adjacent to the start, some path is returned. *)
Lemma dfs_adjacent (fuel : nat) start :
  (size U + 2 ≤ fuel)%nat →
  start ≠ end_ → end_ ∈ neighbours graph start →
  ∃ r, dfs fuel graph start end_ None = Ok (Some r).
Proof.
  destruct fuel as [|fuel]; [lia|]. intros Hle Hne Hadj.
  rewrite dfs_S. rewrite bool_decide_eq_false_2 by done.
  apply first_path_finds with (p := end_) (r0 := ([] ++ [start]) ++ [end_]).
  - done.
  - destruct fuel as [|fuel]; [lia|]. rewrite dfs_S.
    by rewrite bool_decide_eq_true_2.
  - intros q Hq.
    destruct (dfs fuel graph q end_ (Some ([] ++ [start]))) as [o|e|] eqn:E.
    + by eexists.
    + by apply dfs_inner_no_raise in E.
    + exfalso. revert E. apply dfs_inner_terminates with (U := U).
      * done.
      * by eapply closed.
      * assert (size (U ∖ list_to_set ([] ++ [start])) ≤ size U)%nat; [|lia].
        apply subseteq_size. set_solver.
Qed.
(** Completeness: when a chain without repeated nodes leads from [start]
    to [end_] outside the in-progress path, some path is returned. *)
Lemma dfs_inner_complete (fuel : nat) start path q :
  is_chain graph (start :: q) → last (start :: q) = Some end_ →
  NoDup (start :: q) → (∀ x, x ∈ start :: q → x ∉ path) →
  start ∈ U → (size (U ∖ list_to_set path) < fuel)%nat →
  ∃ r, dfs fuel graph start end_ (Some path) = Ok (Some r).
Proof.
  revert start path q. induction fuel as [|fuel IH];
    intros start path q Hch Hlast Hnd Hout HU Hlt; [lia|].
  rewrite dfs_S. case_bool_decide as Hend; [by eexists|].
  assert (start ∉ path) as Hnin by (apply Hout, list_elem_of_here).
  rewrite bool_decide_eq_false_2 by done.
  destruct q as [|c q]; [simpl in Hlast; congruence|].
  destruct Hch as [Hadj Hch]. apply NoDup_cons in Hnd as [Hsq Hnd].
  pose proof (unvisited_decreases U path start HU Hnin) as Hdec.
  destruct (IH c (path ++ [start]) q) as [r0 Hr0]; try done.
  - intros x Hx. rewrite elem_of_app, list_elem_of_singleton.
    intros [Hp| ->]; [|done].
    by apply (Hout x); [apply list_elem_of_further|].
  - by eapply closed.
  - lia.
  - apply first_path_finds with (p := c) (r0 := r0); try done.
    intros p Hp.
    destruct (dfs fuel graph p end_ (Some (path ++ [start]))) as [o|e|] eqn:E.
    + by eexists.
    + by apply dfs_inner_no_raise in E.
    + exfalso. revert E. apply dfs_inner_terminates with (U := U).
      * done.
      * by eapply closed.
      * lia.
Qed.

Lemma dfs_complete (fuel : nat) start c q :
  (size U + 2 ≤ fuel)%nat →
  is_chain graph (start :: c :: q) → last (start :: c :: q) = Some end_ →
  NoDup (start :: c :: q) → start ≠ end_ →
  ∃ r, dfs fuel graph start end_ None = Ok (Some r).
Proof.
  destruct fuel as [|fuel]; [lia|]. intros Hle [Hadj Hch] Hlast Hnd Hne.
  rewrite dfs_S. rewrite bool_decide_eq_false_2 by done.
  apply NoDup_cons in Hnd as [Hsq Hnd].
  assert (size (U ∖ list_to_set ([] ++ [start])) ≤ size U)%nat as Hsz
    by (apply subseteq_size; set_solver).
  destruct (dfs_inner_complete fuel c ([] ++ [start]) q) as [r0 Hr0]; try done.
  - intros x Hx ->%list_elem_of_singleton. done.
  - by eapply closed.
  - lia.
  - apply first_path_finds with (p := c) (r0 := r0); try done.
    intros p Hp.
    destruct (dfs fuel graph p end_ (Some ([] ++ [start]))) as [o|e|] eqn:E.
    + by eexists.
    + by apply dfs_inner_no_raise in E.
    + exfalso. revert E. apply dfs_inner_terminates with (U := U).
      * done.
      * by eapply closed.
      * lia.
Qed.
End search_results.

(** A chain in the graph of the records is a connecting chain of records. *)
Lemma chain_connected recs a q b :
  is_chain (graph_of recs) (a :: q) → last (a :: q) = Some b →
  connected recs a b.
Proof.
  revert a. induction q as [|c q IH]; intros a Hch Hlast.
  - simpl in Hlast. injection Hlast as ->. apply rtc_refl.
  - destruct Hch as [Hadj Hch].
    apply rtc_l with c; [by apply elem_of_neighbours_graph_of|].
    apply IH; [done|]. by rewrite last_cons_cons in Hlast.
Qed.

Lemma chain_units recs a b q x :
  is_chain (graph_of recs) (a :: b :: q) → x ∈ a :: b :: q → x ∈ units recs.
Proof.
  revert a b. induction q as [|c q IH]; intros a b [Hadj Hch] Hx.
  - apply elem_of_neighbours_graph_of, linked_units in Hadj as [Ha Hb].
    apply elem_of_cons in Hx as [->|Hx]; [done|].
    apply list_elem_of_singleton in Hx as ->. done.
  - apply elem_of_cons in Hx as [->|Hx]; [|by eapply IH].
    by apply elem_of_neighbours_graph_of, linked_units in Hadj as [Ha Hb].
Qed.

Lemma is_chain_app_r graph (l1 l2 : list string) :
  is_chain graph (l1 ++ l2) → is_chain graph l2.
Proof.
  induction l1 as [|a l1 IH]; [done|]. intros Hch. apply IH.
  destruct l1 as [|b l1]; simpl in *.
  - by destruct l2; [|destruct Hch].
  - by destruct Hch.
Qed.

(** A connecting chain of records can be taken without repeated units. *)
Lemma connected_simple_chain recs a b :
  connected recs a b →
  ∃ q, is_chain (graph_of recs) (a :: q) ∧ last (a :: q) = Some b ∧
       NoDup (a :: q).
Proof.
  induction 1 as [a|a c b Hl _ (q & Hch & Hlast & Hnd)].
  - exists []. repeat split; try done. apply NoDup_singleton.
  - destruct (decide (a ∈ c :: q)) as [Hin|Hnin].
    + apply list_elem_of_split in Hin as (l1 & l2 & Heq).
      exists l2. rewrite Heq in Hch, Hlast, Hnd. repeat split.
      * by eapply is_chain_app_r.
      * by rewrite last_app_cons in Hlast.
      * by apply NoDup_app in Hnd as (_ & _ & ?).
    + exists (c :: q). repeat split.
      * by apply elem_of_neighbours_graph_of.
      * done.
      * done.
      * by apply NoDup_cons.
Qed.

(** The search from [start] to a different [end_] returns a path exactly
    when a connecting chain of records exists. *)
Lemma dfs_finds_iff_connected recs start end_ :
  start ≠ end_ →
  (∃ r, dfs (budget recs) (graph_of recs) start end_ None = Ok (Some r)) ↔
  connected recs start end_.
Proof.
  intros Hne. split.
  - intros (r & (p & q & -> & Hch & Hlast & _)%dfs_sound).
    by eapply chain_connected.
  - intros (q & Hch & Hlast & Hnd)%connected_simple_chain.
    destruct q as [|c q]; [simpl in Hlast; congruence|].
    eapply dfs_complete with (U := units recs); try done;
      first [apply graph_of_closed | unfold budget; lia].
Qed.

Lemma NoDup_length_le_size (l : list string) (U : gset string) :
  NoDup l → (∀ x, x ∈ l → x ∈ U) → (length l ≤ size U)%nat.
Proof.
  intros Hnd Hsub. rewrite <- (size_list_to_set (C := gset string) l Hnd).
  apply subseteq_size. intros x Hx. apply Hsub. by apply elem_of_list_to_set in Hx.
Qed.

Lemma last_linked recs n :
  last recs = Some n → linked recs (source n) (destination n).
Proof.
  intros Hl. exists n. split; [|by left].
  apply last_Some in Hl as [l' ->]. apply elem_of_app. right.
  by apply list_elem_of_singleton.
Qed.

(** The outcomes of [_find_normalization_path], case by case. *)
Lemma find_normalization_path_empty src dst :
  find_normalization_path [] src dst =
  if bool_decide (src = dst) then Raised TypeError else Ok None.
Proof.
  rewrite find_normalization_path_unfold. unfold budget.
  rewrite Nat.add_comm. cbn [Nat.add]. rewrite dfs_S.
  change (final_src [] src) with src. change (final_dst [] dst) with dst.
  case_bool_decide; [done|].
  replace (neighbours (graph_of []) src) with (@nil string); [done|].
  unfold neighbours, graph_of. simpl. by rewrite lookup_empty.
Qed.

Lemma find_normalization_path_last recs n src dst :
  last recs = Some n →
  find_normalization_path recs src dst =
  dfs (budget recs) (graph_of recs) (source n) (destination n) None.
Proof.
  intros Hl. rewrite find_normalization_path_unfold.
  unfold final_src, final_dst. by rewrite Hl.
Qed.

Lemma find_normalization_path_self_loop recs n src dst :
  last recs = Some n → source n = destination n →
  find_normalization_path recs src dst = Raised TypeError.
Proof.
  intros Hl Heq. rewrite (find_normalization_path_last _ _ _ _ Hl).
  unfold budget. rewrite Nat.add_comm. cbn [Nat.add].
  apply (dfs_raises (graph_of recs) (destination n)). done.
Qed.

Lemma find_normalization_path_found recs n src dst :
  last recs = Some n → source n ≠ destination n →
  ∃ p q, find_normalization_path recs src dst = Ok (Some (source n :: p :: q)) ∧
         is_chain (graph_of recs) (source n :: p :: q) ∧
         last (source n :: p :: q) = Some (destination n) ∧
         NoDup (source n :: p :: q).
Proof.
  intros Hl Hne. rewrite (find_normalization_path_last _ _ _ _ Hl).
  destruct (dfs_adjacent (graph_of recs) (destination n) (units recs)
              (graph_of_closed recs) (budget recs) (source n)) as [r Hr].
  - unfold budget. lia.
  - done.
  - by apply elem_of_neighbours_graph_of, last_linked.
  - rewrite Hr. apply dfs_sound in Hr as (p & q & -> & Hch & Hlast & Hnd & _).
    by exists p, q.
Qed.

(** ** Properties of the resolver *)

(** C1: with the single record F -> C, the forward request
    [normalize("32","F","C")] returns ["0"], but the reverse request
    [normalize("0","C","F")] returns [None] instead of ["32"]: the path is
    resolved as [["F","C"]] whatever the arguments, so the walk looks ["0"]
    up forwards. The reverse lookup itself, asked directly, gives ["32"]. *)
Theorem normalize_single_record_round_trip :
  normalize [rec_FC] "32" "F" "C" false = Ok (Some "0") ∧
  find_normalization_path [rec_FC] "C" "F" = Ok (Some ["F"; "C"]) ∧
  normalize [rec_FC] "0" "C" "F" false = Ok None ∧
  apply_direct_normalization [rec_FC] (Some "0") "C" "F" = Some "32".
Proof. repeat split; vm_compute; reflexivity. Qed.

(** C2: with the records F -> C and C -> K, [normalize("32","F","K")]
    returns [None], not ["273"]: the resolved path is [["C","K"]], the ends
    of the last record. Declared in the other order the result is ["0"].
    The walk itself, run along [["F","C","K"]], does compose the two
    mappings and gives ["273"]. *)
Theorem normalize_chained_conversion :
  find_normalization_path [rec_FC; rec_CK] "F" "K" = Ok (Some ["C"; "K"]) ∧
  normalize [rec_FC; rec_CK] "32" "F" "K" false = Ok None ∧
  normalize [rec_CK; rec_FC] "32" "F" "K" false = Ok (Some "0") ∧
  walk [rec_FC; rec_CK] ["F"; "C"; "K"] (Some "32") = Ok (Some "273").
Proof. repeat split; vm_compute; reflexivity. Qed.

(** C10: with a non-empty list of records, the result of
    [_find_normalization_path] does not depend on its arguments: the search
    runs from the last record's source to the last record's destination. *)
Theorem find_normalization_path_ignores_arguments recs s1 d1 s2 d2 :
  recs ≠ [] →
  find_normalization_path recs s1 d1 = find_normalization_path recs s2 d2 ∧
  ∃ n, last recs = Some n ∧
       find_normalization_path recs s1 d1 =
       dfs (budget recs) (graph_of recs) (source n) (destination n) None.
Proof.
  intros Hne. destruct (last recs) as [n|] eqn:Hl.
  - rewrite !(find_normalization_path_last recs n) by done.
    split; [done|]. by exists n.
  - by apply last_None in Hl.
Qed.

(** The two records of the chained example, asked for F to K and for
    K to F. *)
Lemma find_normalization_path_ignores_arguments_witness :
  [rec_FC; rec_CK] ≠ [] ∧
  find_normalization_path [rec_FC; rec_CK] "F" "K" =
  find_normalization_path [rec_FC; rec_CK] "K" "F".
Proof.
  split; [done|].
  apply (find_normalization_path_ignores_arguments
           [rec_FC; rec_CK] "F" "K" "K" "F"). done.
Defined.

(** C9: [_find_normalization_path] terminates on every list of records,
    cyclic graphs included. The recursion budget is never exhausted and a
    larger one gives the same outcome; the search does not re-enter a node
    of the in-progress path; a returned path repeats no node and is no
    longer than the number of distinct unit names. *)
Theorem find_normalization_path_total recs src dst :
  find_normalization_path recs src dst ≠ OutOfFuel ∧
  (∀ fuel : nat, (budget recs ≤ fuel)%nat →
     dfs fuel (graph_of recs) (final_src recs src) (final_dst recs dst) None =
     find_normalization_path recs src dst) ∧
  (∀ (fuel : nat) start end_ path,
     start ∈ path → end_ ∉ path →
     dfs (S fuel) (graph_of recs) start end_ (Some path) = Ok None) ∧
  (∀ path, find_normalization_path recs src dst = Ok (Some path) →
     NoDup path ∧ (length path ≤ size (units recs))%nat).
Proof.
  split; [apply find_normalization_path_terminates|].
  split; [|split].
  - intros fuel Hle. rewrite find_normalization_path_unfold.
    apply dfs_fuel_mono; [done|].
    rewrite <- find_normalization_path_unfold.
    apply find_normalization_path_terminates.
  - intros fuel start end_ path Hin Hnin. rewrite dfs_S.
    rewrite bool_decide_eq_false_2 by (intros ->; done).
    by rewrite bool_decide_eq_true_2.
  - intros path. rewrite find_normalization_path_unfold.
    intros (p & q & -> & Hch & Hlast & Hnd & _)%dfs_sound.
    split; [done|]. apply NoDup_length_le_size; [done|].
    intros x. by apply chain_units.
Qed.

(** A budget that is too small is reported as such, here on the cycle
    A - B - C - A searched for a unit that no record names. *)
Example dfs_small_budget :
  let g := graph_of [mkNormalization "A" "B" []; mkNormalization "B" "C" [];
                     mkNormalization "C" "A" []] in
  dfs 3 g "A" "Z" None = OutOfFuel ∧ dfs 5 g "A" "Z" None = Ok None.
Proof. split; vm_compute; reflexivity. Qed.

(** On the same cycle the search from C to A returns the path through B,
    found first, and that path is within the bound. *)
Lemma find_normalization_path_total_witness :
  find_normalization_path
    [mkNormalization "A" "B" []; mkNormalization "B" "C" [];
     mkNormalization "C" "A" []] "A" "C" = Ok (Some ["C"; "B"; "A"]) ∧
  NoDup ["C"; "B"; "A"] ∧
  (length ["C"; "B"; "A"] ≤
   size (units [mkNormalization "A" "B" []; mkNormalization "B" "C" [];
                mkNormalization "C" "A" []]))%nat.
Proof.
  split; [vm_compute; reflexivity|].
  apply (proj2 (proj2 (proj2 (find_normalization_path_total
    [mkNormalization "A" "B" []; mkNormalization "B" "C" [];
     mkNormalization "C" "A" []] "A" "C")))).
  vm_compute. reflexivity.
Defined.

(** C4: [_find_normalization_path(a, a)] never returns the single-node
    path [[a]] and never returns [None]. Without records, or when the last
    record is a self-loop, it raises [TypeError] ([path + [end]] with [path]
    still [None]); otherwise it returns the path between the ends of the
    last record, which has at least two nodes. *)
Theorem find_normalization_path_same_unit :
  (∀ recs a, find_normalization_path recs a a ≠ Ok (Some [a]) ∧
             find_normalization_path recs a a ≠ Ok None) ∧
  (∀ a, find_normalization_path [] a a = Raised TypeError) ∧
  find_normalization_path [rec_FC] "F" "F" = Ok (Some ["F"; "C"]) ∧
  find_normalization_path [mkNormalization "A" "A" [("x", "y")]] "A" "A" =
    Raised TypeError.
Proof.
  split; [|split; [|split; vm_compute; reflexivity]].
  - intros recs a. destruct (last recs) as [n|] eqn:Hl.
    + destruct (decide (source n = destination n)) as [Heq|Hne].
      * rewrite (find_normalization_path_self_loop recs n) by done. done.
      * destruct (find_normalization_path_found recs n a a Hl Hne)
          as (p & q & -> & _). done.
    + apply last_None in Hl as ->.
      rewrite find_normalization_path_empty.
      by rewrite bool_decide_eq_true_2.
  - intros a. rewrite find_normalization_path_empty.
    by rewrite bool_decide_eq_true_2.
Qed.

(** C5: the resolver can raise. [_find_normalization_path] raises
    [TypeError] exactly when the search is started from a node to itself
    (same arguments without records, or a last record that is a
    self-loop), and [normalize] raises with it. [IndexError] never
    occurs. *)
Theorem resolver_raises_TypeError :
  find_normalization_path [] "A" "A" = Raised TypeError ∧
  normalize [] "w" "A" "A" false = Raised TypeError ∧
  normalize [mkNormalization "A" "A" [("x", "y")]] "x" "F" "C" true =
    Raised TypeError ∧
  (∀ recs src dst e,
     find_normalization_path recs src dst = Raised e ↔
     final_src recs src = final_dst recs dst ∧ e = TypeError) ∧
  (∀ recs word src dst echo_word e,
     normalize recs word src dst echo_word = Raised e ↔
     find_normalization_path recs src dst = Raised e).
Proof.
  split; [vm_compute; reflexivity|].
  split; [vm_compute; reflexivity|].
  split; [vm_compute; reflexivity|].
  split.
  - intros recs src dst e. rewrite find_normalization_path_unfold.
    unfold budget. rewrite Nat.add_comm. cbn [Nat.add].
    apply dfs_raises.
  - intros recs word src dst echo_word e. rewrite normalize_unfold.
    destruct (find_normalization_path recs src dst) as [[path|]|e'|];
      try (split; done); [|split; intros [= ->]; done].
    destruct (hops recs path (Some word)), echo_word; split; done.
Qed.

(** *** Direct conversion *)

Lemma apply_direct_normalization_cons n rest word src dst :
  apply_direct_normalization (n :: rest) word src dst =
  if decide (declares n src dst) then dict_get (mapping n) word
  else if decide (declares n dst src) then
    match first_key_of (mapping n) word with
    | Some key => Some key
    | None => apply_direct_normalization rest word src dst
    end
  else apply_direct_normalization rest word src dst.
Proof.
  unfold declares. simpl.
  repeat case_bool_decide; simpl; repeat case_decide; try done; tauto.
Qed.

(** Records that declare neither [(src, dst)] nor [(dst, src)] are passed
    over. *)
Lemma apply_direct_normalization_skip pre rest word src dst :
  Forall (λ n, ¬ declares n src dst ∧ ¬ declares n dst src) pre →
  apply_direct_normalization (pre ++ rest) word src dst =
  apply_direct_normalization rest word src dst.
Proof.
  induction 1 as [|n pre [Hf Hr] _ IH]; [done|].
  rewrite <- app_comm_cons, apply_direct_normalization_cons.
  by rewrite !decide_False.
Qed.

(** The reverse scan returns the key of the first entry, in insertion
    order, whose value is [word]. *)
Lemma first_key_of_Some d word key :
  first_key_of d word = Some key ↔
  ∃ i value, d !! i = Some (key, value) ∧ Some value = word ∧
             ∀ j kv, (j < i)%nat → d !! j = Some kv → Some kv.2 ≠ word.
Proof.
  induction d as [|[k v] d IH]; simpl.
  - split; [done|]. by intros (i & value & Hi & _).
  - case_bool_decide as Hv.
    + split.
      * intros [= <-]. exists 0%nat, v. repeat split; try done. intros j kv Hj. lia.
      * intros ([|i] & value & Hi & Hw & Hmin).
        -- simpl in Hi. by injection Hi as -> ->.
        -- exfalso. by apply (Hmin 0%nat (k, v)); [lia| |].
    + rewrite IH. split.
      * intros (i & value & Hi & Hw & Hmin). exists (S i), value.
        repeat split; try done. intros [|j] kv Hj Hkv.
        -- simpl in Hkv. by injection Hkv as <-.
        -- apply (Hmin j kv); [lia|done].
      * intros ([|i] & value & Hi & Hw & Hmin).
        -- simpl in Hi. injection Hi as -> ->. done.
        -- exists i, value. repeat split; try done.
           intros j kv Hj Hkv. apply (Hmin (S j) kv); [lia|done].
Qed.

(** The two readings agree whenever the first matching record answers. *)
Lemma apply_first_record_only_Some recs word src dst key :
  apply_first_record_only recs word src dst = Some key →
  apply_direct_normalization recs word src dst = Some key.
Proof.
  unfold apply_first_record_only.
  induction recs as [|n rest IH]; [done|].
  rewrite apply_direct_normalization_cons. cbn [list_find].
  destruct (decide (declares n src dst)) as [Hf|Hf].
  - rewrite decide_True by (by left). by rewrite decide_True.
  - destruct (decide (declares n dst src)) as [Hr|Hr].
    + rewrite decide_True by (by right). rewrite decide_False by done.
      by intros ->.
    + rewrite decide_False by tauto.
      destruct (list_find _ rest) as [[i m]|]; [|done]. exact IH.
Qed.

(** C6: the direct conversion does not stop at the first record that
    declares the pair. The first record here declares (C, F), so the
    request (F, C) matches it in reverse; no value of its mapping is ["y"],
    and the scan goes on to the second record, whose forward lookup
    answers ["z"], where consulting the first matching record only gives
    [None]. The forward branch does stop on a miss: with the two records
    in the other order, the request for ["x"] gets [None] from the first
    record although the second would answer ["a"] in reverse. *)
Theorem apply_direct_later_record_consulted :
  first_key_of (mapping rec_CF_ax) (Some "y") = None ∧
  apply_first_record_only [rec_CF_ax; rec_FC_yz] (Some "y") "F" "C" = None ∧
  apply_direct_normalization [rec_CF_ax; rec_FC_yz] (Some "y") "F" "C" = Some "z" ∧
  apply_direct_normalization [rec_FC_yz; rec_CF_ax] (Some "x") "F" "C" = None ∧
  apply_direct_normalization [rec_CF_ax] (Some "x") "F" "C" = Some "a".
Proof. repeat split; vm_compute; reflexivity. Qed.

(** The scan as the code runs it: a forward match ends it with
    [mapping.get(word)], present or absent; a reverse match ends it only
    when some value is [word], and otherwise the records after it are
    scanned. *)
Lemma apply_direct_normalization_scan recs word src dst :
  apply_direct_normalization recs word src dst =
  match list_find (λ n, declares n src dst ∨ declares n dst src) recs with
  | Some (i, n) =>
      if decide (declares n src dst) then dict_get (mapping n) word
      else match first_key_of (mapping n) word with
           | Some key => Some key
           | None => apply_direct_normalization (drop (S i) recs) word src dst
           end
  | None => None
  end.
Proof.
  induction recs as [|n rest IH]; [done|].
  rewrite apply_direct_normalization_cons. cbn [list_find].
  destruct (decide (declares n src dst)) as [Hf|Hf].
  - rewrite decide_True by (by left). by rewrite decide_True.
  - destruct (decide (declares n dst src)) as [Hr|Hr].
    + rewrite decide_True by (by right). by rewrite decide_False.
    + rewrite decide_False by tauto. rewrite IH.
      destruct (list_find _ rest) as [[i m]|]; done.
Qed.



(** A reverse hop inside [normalize]: the path from S to D found first
    goes through X, against the declaration of the first record. *)
Example normalize_reverse_hop :
  let recs := [mkNormalization "X" "S" [("a", "x"); ("b", "x")];
               mkNormalization "X" "D" [("a", "1"); ("b", "2")];
               mkNormalization "S" "D" []] in
  find_normalization_path recs "S" "D" = Ok (Some ["S"; "X"; "D"]) ∧
  normalize recs "x" "S" "D" false = Ok (Some "1").
Proof. split; vm_compute; reflexivity. Qed.

(** *** Echo *)

(** C7: when no path is found [normalize] returns [None], also with
    [echo_word] set; when a path is found, the walk along it ends with
    [None] and [echo_word] is set, it returns the word it was given; in
    every other case it returns the result of the walk. *)
Theorem normalize_echo_semantics recs word src dst :
  (find_normalization_path recs src dst = Ok None →
   ∀ echo_word, normalize recs word src dst echo_word = Ok None) ∧
  (∀ path,
     find_normalization_path recs src dst = Ok (Some path) →
     walk recs path (Some word) = Ok None →
     normalize recs word src dst true = Ok (Some word)) ∧
  (∀ path echo_word,
     find_normalization_path recs src dst = Ok (Some path) →
     echo_word = false ∨ walk recs path (Some word) ≠ Ok None →
     normalize recs word src dst echo_word = walk recs path (Some word)).
Proof.
  unfold normalize. split; [|split].
  - intros -> echo_word. done.
  - intros path -> Hw. cbn [mbind outcome_bind]. by rewrite Hw.
  - intros path echo_word -> Hcase. cbn [mbind outcome_bind].
    destruct (walk recs path (Some word)) as [[w|]|e|]; try done.
    destruct Hcase as [->|Hw]; done.
Qed.

(** The three cases on concrete requests: no path; a path whose walk
    finds no key, with and without echo; a path whose walk succeeds. *)
Lemma normalize_echo_semantics_witness :
  normalize [] "32" "F" "C" true = Ok None ∧
  normalize [rec_FC] "999" "F" "C" true = Ok (Some "999") ∧
  normalize [rec_FC] "999" "F" "C" false = Ok None ∧
  normalize [rec_FC] "32" "F" "C" true = Ok (Some "0").
Proof.
  split; [|split; [|split]].
  - apply (proj1 (normalize_echo_semantics [] "32" "F" "C")).
    vm_compute. reflexivity.
  - apply (proj1 (proj2 (normalize_echo_semantics [rec_FC] "999" "F" "C"))
             ["F"; "C"]); vm_compute; reflexivity.
  - rewrite (proj2 (proj2 (normalize_echo_semantics [rec_FC] "999" "F" "C"))
               ["F"; "C"] false); [vm_compute; reflexivity.. | by left].
  - rewrite (proj2 (proj2 (normalize_echo_semantics [rec_FC] "32" "F" "C"))
               ["F"; "C"] true); [vm_compute; reflexivity.. | right].
    vm_compute. discriminate.
Defined.

(** *** Unconnected units *)

Lemma not_connected_nil a b : a ≠ b → ¬ connected [] a b.
Proof.
  intros Hne Hc. destruct Hc as [|a c b (n & Hn & _) _]; [done|].
  by apply elem_of_nil in Hn.
Qed.

Lemma connected_FC a b :
  connected [rec_FC] a b → a = "F" ∨ a = "C" → b = "F" ∨ b = "C".
Proof.
  induction 1 as [|a c b (n & Hn & Hl) _ IH]; [done|].
  intros _. apply IH. apply list_elem_of_singleton in Hn as ->.
  simpl in Hl. destruct Hl as [[_ <-]|[<- _]]; auto.
Qed.

(** C3, as stated, fails: without records F and C have no connecting
    chain and no path is found, yet with [echo_word] set [normalize]
    returns [None], not the word. *)
Lemma no_path_echo_returns_none :
  ¬ connected [] "F" "C" ∧
  find_normalization_path [] "F" "C" = Ok None ∧
  normalize [] "32" "F" "C" true = Ok None ∧
  normalize [] "32" "F" "C" true ≠ Ok (Some "32").
Proof.
  split; [by apply not_connected_nil|].
  repeat split; try (vm_compute; reflexivity). vm_compute. discriminate.
Qed.

(** C3, amended: for unit names [start] and [end_] with no connecting
    chain of records, the depth-first search from [start] to [end_] over
    the graph of the records returns [None]; and whenever
    [_find_normalization_path] returns [None], [normalize] returns [None],
    with [echo_word] unset and with it set. *)
Theorem no_chain_no_path recs :
  (∀ start end_,
     ¬ connected recs start end_ →
     dfs (budget recs) (graph_of recs) start end_ None = Ok None) ∧
  (∀ word src dst echo_word,
     find_normalization_path recs src dst = Ok None →
     normalize recs word src dst echo_word = Ok None).
Proof.
  split.
  - intros start end_ Hnc.
    destruct (dfs (budget recs) (graph_of recs) start end_ None)
      as [[r|]|e|] eqn:E; [| done | |].
    + exfalso. apply Hnc.
      apply dfs_sound in E as (p & q & -> & Hch & Hlast & _).
      by eapply chain_connected.
    + exfalso. apply Hnc. unfold budget in E.
      rewrite Nat.add_comm in E. cbn [Nat.add] in E.
      apply dfs_raises in E as [-> _]. apply rtc_refl.
    + exfalso. revert E. apply dfs_terminates with (U := units recs).
      * apply graph_of_closed.
      * unfold budget. lia.
  - intros word src dst echo_word H. unfold normalize. by rewrite H.
Qed.

(** K is not connected to F by the single record F -> C. *)
Lemma no_chain_no_path_witness :
  dfs (budget [rec_FC]) (graph_of [rec_FC]) "F" "K" None = Ok None ∧
  normalize [] "32" "F" "C" true = Ok None.
Proof.
  split.
  - apply (proj1 (no_chain_no_path [rec_FC]) "F" "K").
    intros Hc. apply connected_FC in Hc as [?|?]; [done | done | by left].
  - apply (proj2 (no_chain_no_path []) "32" "F" "C" true).
    vm_compute. reflexivity.
Defined.

(** ** Further properties of the resolver *)

(** *** The graph *)

Lemma units_snoc recs n :
  units (recs ++ [n]) = units recs ∪ {[source n; destination n]}.
Proof.
  unfold units. rewrite bind_app, list_to_set_app_L. f_equal.
  simpl. set_solver.
Qed.

Lemma dom_graph_of recs : dom (graph_of recs) = units recs.
Proof.
  induction recs as [|n recs IH] using rev_ind; [done|].
  rewrite graph_of_snoc, units_snoc. cbv zeta.
  rewrite !dom_insert_L, IH. set_solver.
Qed.

Lemma length_neighbours_graph_of recs a :
  length (neighbours (graph_of recs) a) =
  (length (filter (λ n, source n = a) recs) +
   length (filter (λ n, destination n = a) recs))%nat.
Proof.
  induction recs as [|n recs IH] using rev_ind; [done|].
  rewrite graph_of_snoc. cbv zeta. rewrite !neighbours_insert.
  rewrite !filter_app, !length_app, !filter_cons, !filter_nil.
  destruct n as [s d m]; simpl.
  destruct (decide (d = a)) as [->|Hd], (decide (s = a)) as [->|Hs];
    try destruct (decide (a = a)) as [_|[]]; try done;
    try destruct (decide (s = a)) as [->|_]; try done;
    try destruct (decide (a = d)) as [->|_]; try done;
    rewrite ?length_app; simpl; rewrite ?IH; lia.
Qed.

(** X1: the graph is undirected and its edges are the declared pairs: [b]
    is in the adjacency list of [a] exactly when some record has [a] and
    [b] as its two ends, in either order, and then [a] is in the adjacency
    list of [b]. *)
Theorem graph_edges_are_record_links recs a b :
  (b ∈ neighbours (graph_of recs) a ↔ linked recs a b) ∧
  (b ∈ neighbours (graph_of recs) a ↔ a ∈ neighbours (graph_of recs) b).
Proof.
  split; [apply elem_of_neighbours_graph_of|].
  rewrite !elem_of_neighbours_graph_of. split; apply linked_sym.
Qed.

(** X2: the keys of the graph are exactly the unit names of the records,
    and every record adds one entry to the adjacency list of its source
    and one to that of its destination: the list of [a] has as many
    entries as there are records with source [a] plus records with
    destination [a] (a self-loop record counts twice). *)
Theorem graph_keys_and_degrees recs a :
  dom (graph_of recs) = units recs ∧
  length (neighbours (graph_of recs) a) =
  (length (filter (λ n, source n = a) recs) +
   length (filter (λ n, destination n = a) recs))%nat.
Proof. split; [apply dom_graph_of|apply length_neighbours_graph_of]. Qed.

(** *** The search *)

Lemma is_chain_lookup graph (l : list string) i a b :
  is_chain graph l → l !! i = Some a → l !! S i = Some b →
  b ∈ neighbours graph a.
Proof.
  revert i. induction l as [|x l IH]; intros i Hch Ha Hb; [done|].
  destruct l as [|y l]; [by destruct i|].
  destruct Hch as [Hadj Hch]. destruct i as [|i].
  - simpl in Ha, Hb. injection Ha as <-. injection Hb as <-. done.
  - by apply (IH i).
Qed.

(** X3: a path returned by the search from [start] to [end_] begins with
    [start], ends with [end_], has at least two nodes, repeats no node, and
    each two consecutive nodes are the two ends of some record. *)
Theorem dfs_returns_simple_chain (fuel : nat) recs start end_ r :
  dfs fuel (graph_of recs) start end_ None = Ok (Some r) →
  head r = Some start ∧ last r = Some end_ ∧ (2 ≤ length r)%nat ∧ NoDup r ∧
  ∀ i a b, r !! i = Some a → r !! S i = Some b → linked recs a b.
Proof.
  intros (p & q & -> & Hch & Hlast & Hnd & _)%dfs_sound.
  repeat split; try done.
  - simpl. lia.
  - intros i a b Ha Hb. apply elem_of_neighbours_graph_of.
    by eapply is_chain_lookup.
Qed.

(** On the cycle A - B - C - A, from C to A. *)
Lemma dfs_returns_simple_chain_witness :
  head ["C"; "B"; "A"] = Some "C" ∧ last ["C"; "B"; "A"] = Some "A" ∧
  (2 ≤ length ["C"; "B"; "A"])%nat ∧ NoDup ["C"; "B"; "A"] ∧
  ∀ i a b, ["C"; "B"; "A"] !! i = Some a → ["C"; "B"; "A"] !! S i = Some b →
    linked [mkNormalization "A" "B" []; mkNormalization "B" "C" [];
            mkNormalization "C" "A" []] a b.
Proof.
  apply (dfs_returns_simple_chain 5
           [mkNormalization "A" "B" []; mkNormalization "B" "C" [];
            mkNormalization "C" "A" []] "C" "A").
  vm_compute. reflexivity.
Defined.

(** X4: the search is complete: whenever a chain of records connects two
    different units, the search between them returns a path. *)
Theorem dfs_finds_connected recs start end_ :
  connected recs start end_ → start ≠ end_ →
  ∃ r, dfs (budget recs) (graph_of recs) start end_ None = Ok (Some r).
Proof. intros Hc Hne. by apply dfs_finds_iff_connected. Qed.

Lemma connected_F_K : connected [rec_FC; rec_CK] "F" "K".
Proof.
  apply rtc_l with "C".
  - exists rec_FC. split; [apply list_elem_of_here|by left].
  - apply rtc_once. exists rec_CK.
    split; [apply list_elem_of_further, list_elem_of_here|by left].
Qed.

(** F and K, connected through C. *)
Lemma dfs_finds_connected_witness :
  ∃ r, dfs (budget [rec_FC; rec_CK]) (graph_of [rec_FC; rec_CK]) "F" "K" None =
       Ok (Some r).
Proof.
  apply (dfs_finds_connected [rec_FC; rec_CK] "F" "K").
  - apply connected_F_K.
  - done.
Defined.

(** X5: with a non-empty list of records whose last record joins two
    different units, [_find_normalization_path] returns a path for all
    arguments, never [None]: a path without repeated nodes from that
    record's source to its destination. *)
Theorem find_normalization_path_always_found recs n src dst :
  last recs = Some n → source n ≠ destination n →
  ∃ r, find_normalization_path recs src dst = Ok (Some r) ∧
       head r = Some (source n) ∧ last r = Some (destination n) ∧ NoDup r.
Proof.
  intros Hl Hne.
  destruct (find_normalization_path_found recs n src dst Hl Hne)
    as (p & q & Hr & _ & Hlast & Hnd).
  by eexists.
Qed.

(** The two records of the chained example, asked for K to F. *)
Lemma find_normalization_path_always_found_witness :
  ∃ r, find_normalization_path [rec_FC; rec_CK] "K" "F" = Ok (Some r) ∧
       head r = Some "C" ∧ last r = Some "K" ∧ NoDup r.
Proof.
  apply (find_normalization_path_always_found [rec_FC; rec_CK] rec_CK "K" "F");
    done.
Defined.

(** *** The walk *)

Lemma apply_direct_normalization_None recs src dst :
  apply_direct_normalization recs None src dst = None.
Proof.
  assert (Hget : ∀ d, dict_get d None = None).
  { induction d as [|[k v] d IH]; [done|]. simpl. by rewrite IH. }
  assert (Hkey : ∀ d, first_key_of d None = None).
  { induction d as [|[k v] d IH]; [done|]. simpl. by rewrite IH. }
  induction recs as [|n rest IH]; [done|].
  rewrite apply_direct_normalization_cons, Hget, Hkey, IH.
  by repeat case_decide.
Qed.

Lemma hops_None recs path : hops recs path None = None.
Proof.
  induction path as [|a [|b rest] IH]; try done.
  cbn [hops]. by rewrite apply_direct_normalization_None.
Qed.

Lemma hops_app recs l1 a l2 word :
  hops recs (l1 ++ a :: l2) word =
  hops recs (a :: l2) (hops recs (l1 ++ [a]) word).
Proof.
  revert word. induction l1 as [|x l1 IH]; intros word; [done|].
  destruct l1 as [|y l1]; [done|].
  exact (IH (apply_direct_normalization recs word x y)).
Qed.

(** X6: the indexed loop of [normalize] never subscripts the path out of
    range. Along a path with fewer than two nodes it leaves the word as it
    is; along [a :: b :: rest] it converts the word from [a] to [b] and
    walks on from [b] with the result. *)
Theorem walk_is_pairwise recs word :
  walk recs [] word = Ok word ∧
  (∀ a, walk recs [a] word = Ok word) ∧
  (∀ a b rest,
     walk recs (a :: b :: rest) word =
     walk recs (b :: rest) (apply_direct_normalization recs word a b)) ∧
  (∀ path, ∃ result, walk recs path word = Ok result).
Proof.
  split; [done|]. split; [done|]. split.
  - intros a b rest. by rewrite !walk_hops.
  - intros path. rewrite walk_hops. by eexists.
Qed.

(** X7: walks compose: the walk along a path is the walk along its part
    up to any node [a], followed by the walk from [a] along the rest,
    started with the result of the first. *)
Theorem walk_composes recs l1 a l2 word :
  walk recs (l1 ++ a :: l2) word =
  (result ← walk recs (l1 ++ [a]) word; walk recs (a :: l2) result).
Proof.
  rewrite !walk_hops. cbn [mbind outcome_bind]. rewrite walk_hops.
  by rewrite hops_app.
Qed.

(** X8: a failed hop is final: a conversion asked for [None] gives [None],
    so when the walk up to some node of the path has found nothing, the
    walk along the whole path finds nothing. *)
Theorem walk_failure_propagates recs l1 a l2 word :
  walk recs (l1 ++ [a]) word = Ok None →
  walk recs (l1 ++ a :: l2) word = Ok None.
Proof.
  rewrite !walk_hops. intros [= H]. by rewrite hops_app, H, hops_None.
Qed.

(** The token "999" is not a key of F -> C, so nothing reaches K. *)
Lemma walk_failure_propagates_witness :
  walk [rec_FC; rec_CK] ["F"; "C"; "K"] (Some "999") = Ok None.
Proof.
  apply (walk_failure_propagates [rec_FC; rec_CK] ["F"] "C" ["K"] (Some "999")).
  vm_compute. reflexivity.
Defined.

(** X9: with [echo_word] set, [normalize] returns [None] only when no path
    is found; a token returned without echo is returned with echo too, and
    when the walk along a found path finds nothing the echo returns the
    word. *)
Theorem normalize_echo_never_loses_word recs word src dst :
  (normalize recs word src dst true = Ok None ↔
   find_normalization_path recs src dst = Ok None) ∧
  (∀ r, normalize recs word src dst false = Ok (Some r) →
        normalize recs word src dst true = Ok (Some r)) ∧
  (∀ path, find_normalization_path recs src dst = Ok (Some path) →
           normalize recs word src dst false = Ok None →
           normalize recs word src dst true = Ok (Some word)).
Proof.
  rewrite !normalize_unfold.
  destruct (find_normalization_path recs src dst) as [[path|]|e|];
    [|repeat split; done..].
  destruct (hops recs path (Some word)); repeat split; done.
Qed.

(** X12: with a non-empty list of records, [normalize] does not depend on
    its [src] and [dst] arguments. *)
Theorem normalize_ignores_units recs word s1 d1 s2 d2 echo_word :
  recs ≠ [] →
  normalize recs word s1 d1 echo_word = normalize recs word s2 d2 echo_word.
Proof.
  intros Hne. destruct (last recs) as [n|] eqn:Hl.
  - rewrite !normalize_unfold.
    by rewrite !(find_normalization_path_last recs n).
  - by apply last_None in Hl.
Qed.

(** Celsius is returned whatever units are asked for. *)
Lemma normalize_ignores_units_witness :
  normalize [rec_FC] "32" "F" "C" false = normalize [rec_FC] "32" "K" "Z" false.
Proof.
  apply (normalize_ignores_units [rec_FC] "32" "F" "C" "K" "Z" false). done.
Defined.

(** *** Lookups in a mapping *)

Lemma dict_get_elem_of d key value :
  dict_get d (Some key) = Some value → (key, value) ∈ d.
Proof.
  induction d as [|[k v] d IH]; [done|]. simpl. case_bool_decide as Hk.
  - intros [= <-]. injection Hk as <-. apply list_elem_of_here.
  - intros H. by apply list_elem_of_further, IH.
Qed.

Lemma first_key_of_elem_of d key value :
  first_key_of d (Some value) = Some key → (key, value) ∈ d.
Proof.
  induction d as [|[k v] d IH]; [done|]. simpl. case_bool_decide as Hv.
  - intros [= <-]. injection Hv as <-. apply list_elem_of_here.
  - intros H. by apply list_elem_of_further, IH.
Qed.

(** In a dictionary, whose keys are distinct, an entry is what [get]
    returns for its key. *)
Lemma elem_of_dict_get d key value :
  NoDup d.*1 → (key, value) ∈ d → dict_get d (Some key) = Some value.
Proof.
  induction d as [|[k v] d IH]; intros Hnd Hin; [by apply elem_of_nil in Hin|].
  simpl in *. apply NoDup_cons in Hnd as [Hk Hnd].
  apply elem_of_cons in Hin as [[= -> ->]|Hin].
  - by rewrite bool_decide_eq_true_2.
  - rewrite bool_decide_eq_false_2; [by apply IH|].
    intros [= ->]. apply Hk. apply list_elem_of_fmap. by exists (key, value).
Qed.

(** When the values are distinct too, an entry's key is what the reverse
    scan returns for its value. *)
Lemma elem_of_first_key_of d key value :
  NoDup d.*2 → (key, value) ∈ d → first_key_of d (Some value) = Some key.
Proof.
  induction d as [|[k v] d IH]; intros Hnd Hin; [by apply elem_of_nil in Hin|].
  simpl in *. apply NoDup_cons in Hnd as [Hv Hnd].
  apply elem_of_cons in Hin as [[= -> ->]|Hin].
  - by rewrite bool_decide_eq_true_2.
  - rewrite bool_decide_eq_false_2; [by apply IH|].
    intros [= ->]. apply Hv. apply list_elem_of_fmap. by exists (key, value).
Qed.

(** X13: a conversion never invents a token: when
    [apply_direct_normalization(word, src, dst)] returns [r], some record
    declares [(src, dst)] and maps [word] to [r], or declares [(dst, src)]
    and maps [r] to [word]. *)
Theorem apply_direct_normalization_from_record recs word src dst r :
  apply_direct_normalization recs (Some word) src dst = Some r →
  ∃ n, n ∈ recs ∧
       ((declares n src dst ∧ (word, r) ∈ mapping n) ∨
        (declares n dst src ∧ (r, word) ∈ mapping n)).
Proof.
  induction recs as [|n rest IH]; [done|].
  rewrite apply_direct_normalization_cons.
  assert (Hrest : apply_direct_normalization rest (Some word) src dst = Some r →
                  ∃ n0, n0 ∈ n :: rest ∧
                    ((declares n0 src dst ∧ (word, r) ∈ mapping n0) ∨
                     (declares n0 dst src ∧ (r, word) ∈ mapping n0))).
  { intros (n0 & Hn0 & H)%IH. exists n0. split; [by apply list_elem_of_further|done]. }
  destruct (decide (declares n src dst)) as [Hf|Hf].
  - intros H%dict_get_elem_of. exists n. split; [apply list_elem_of_here|by left].
  - destruct (decide (declares n dst src)) as [Hr|Hr]; [|done].
    destruct (first_key_of (mapping n) (Some word)) as [key|] eqn:E; [|done].
    intros [= ->]. apply first_key_of_elem_of in E.
    exists n. split; [apply list_elem_of_here|by right].
Qed.

(** "100" comes from the entry 212 -> 100 of the record F -> C. *)
Lemma apply_direct_normalization_from_record_witness :
  ∃ n, n ∈ [rec_FC; rec_CK] ∧
       ((declares n "F" "C" ∧ ("212", "100") ∈ mapping n) ∨
        (declares n "C" "F" ∧ ("100", "212") ∈ mapping n)).
Proof.
  apply (apply_direct_normalization_from_record [rec_FC; rec_CK] "212" "F" "C").
  vm_compute. reflexivity.
Defined.

(** X10: reverse, then forward. Let [n] be the only record that declares
    the two different units [source n] and [destination n], in either
    order. A token [key] that the reverse request returns for [word]
    converts forwards to [word] again. *)
Theorem reverse_then_forward pre n post word key :
  source n ≠ destination n →
  NoDup (mapping n).*1 →
  Forall (λ m, ¬ declares m (source n) (destination n) ∧
               ¬ declares m (destination n) (source n)) (pre ++ post) →
  apply_direct_normalization (pre ++ n :: post) (Some word)
    (destination n) (source n) = Some key →
  apply_direct_normalization (pre ++ n :: post) (Some key)
    (source n) (destination n) = Some word.
Proof.
  intros Hne Hnd [Hpre Hpost]%Forall_app.
  rewrite !apply_direct_normalization_skip; [| done |].
  2: { eapply Forall_impl; [exact Hpre|]. simpl. tauto. }
  rewrite !apply_direct_normalization_cons.
  rewrite decide_False by (intros [? ?]; congruence).
  rewrite !decide_True by done.
  rewrite <- (app_nil_r post).
  rewrite apply_direct_normalization_skip.
  2: { eapply Forall_impl; [exact Hpost|]. simpl. tauto. }
  destruct (first_key_of (mapping n) (Some word)) as [k|] eqn:E; [|done].
  intros [= ->]. apply elem_of_dict_get; [done|].
  by apply first_key_of_elem_of.
Qed.

(** "0" degrees Celsius is "32" Fahrenheit, and back. *)
Lemma reverse_then_forward_witness :
  apply_direct_normalization [rec_FC; rec_CK] (Some "32") "F" "C" = Some "0".
Proof.
  apply (reverse_then_forward [] rec_FC [rec_CK] "0" "32").
  - done.
  - vm_compute. repeat constructor; set_solver.
  - repeat constructor; intros [? ?]; done.
  - vm_compute. reflexivity.
Defined.

(** X11: forward, then reverse. Let [n] be the first record that declares
    the two different units [source n] and [destination n], in either
    order, and let no two keys of its mapping share a value. A token that
    the forward request returns for [key] converts back to [key]. *)
Theorem forward_then_reverse pre n post key value :
  source n ≠ destination n →
  NoDup (mapping n).*2 →
  Forall (λ m, ¬ declares m (source n) (destination n) ∧
               ¬ declares m (destination n) (source n)) pre →
  apply_direct_normalization (pre ++ n :: post) (Some key)
    (source n) (destination n) = Some value →
  apply_direct_normalization (pre ++ n :: post) (Some value)
    (destination n) (source n) = Some key.
Proof.
  intros Hne Hnd Hpre.
  rewrite !apply_direct_normalization_skip; [| | done].
  2: { eapply Forall_impl; [exact Hpre|]. simpl. tauto. }
  rewrite !apply_direct_normalization_cons.
  rewrite decide_True by done.
  rewrite decide_False by (intros [? ?]; congruence).
  rewrite decide_True by done.
  intros H%dict_get_elem_of.
  by rewrite (elem_of_first_key_of _ key value).
Qed.

(** "212" Fahrenheit is "100" degrees Celsius, and back. *)
Lemma forward_then_reverse_witness :
  apply_direct_normalization [rec_FC; rec_CK] (Some "100") "C" "F" = Some "212".
Proof.
  apply (forward_then_reverse [] rec_FC [rec_CK] "212" "100").
  - done.
  - vm_compute. repeat constructor; set_solver.
  - constructor.
  - vm_compute. reflexivity.
Defined.

(** *** No records *)

(** X22: with an empty list of records nothing is converted and nothing is
    echoed: for two different units [_find_normalization_path] and
    [normalize] return [None], also with [echo_word] set, and for equal
    units both raise [TypeError]. *)
Theorem normalize_without_records word src dst echo_word :
  find_normalization_path [] src dst =
    (if bool_decide (src = dst) then Raised TypeError else Ok None) ∧
  normalize [] word src dst echo_word =
    (if bool_decide (src = dst) then Raised TypeError else Ok None).
Proof.
  rewrite normalize_unfold, find_normalization_path_empty.
  by case_bool_decide.
Qed.

(** * Course queries of [gradescope/macros.py]

    The functions of [macros.py] fetch pages and tables with
    [gradescope.api.request] and parse them with [bs4] and
    [gradescope.util]. What a fetch returns is an input here: a function
    that only loops over fetched data is embedded with that data as an
    argument. The result dictionary of [get_course_grades] is a [gmap]; the
    order of its items is not modelled. *)

Module Macros.

(** The dictionary [{"name": ..., "term": ..., "id": ...}] returned by
    [get_course_name]. *)
Record course : Type := mkCourse {
  course_name : string;
  course_term : string;
  course_id : string
}.

(** The dictionary [dict(id=..., name=..., url=...)] built by
    [get_course_assignments]. *)
Record assignment : Type := mkAssignment {
  assignment_id : string;
  assignment_name : string;
  assignment_url : string
}.

(** [get_course_id], given the list [get_courses(by_name=True)]. An element
    of that list is [None] when [get_course_name] found no course header
    on the page; subscripting it raises [TypeError]. *)
Fixpoint get_course_id (courses : list (option course))
  (name term : string) : outcome (option string) :=
  match courses with
  | [] => Ok None
  | None :: _ => Raised TypeError
  | Some c :: rest =>
      if bool_decide (course_name c = name) && bool_decide (course_term c = term)
      then Ok (Some (course_id c))
      else get_course_id rest name term
  end.

(** [get_course_assignment_by_name], given the list
    [get_course_assignments(course_id)]. *)
Fixpoint get_course_assignment_by_name (assignments : list assignment)
  (name : string) : option assignment :=
  match assignments with
  | [] => None
  | a :: rest =>
      if bool_decide (assignment_name a = name) then Some a
      else get_course_assignment_by_name rest name
  end.

(** X14: [get_course_assignment_by_name] returns the first assignment of
    the listing that has the name, and [None] exactly when no assignment
    has it. *)
Theorem get_course_assignment_by_name_first assignments name :
  (∀ a, get_course_assignment_by_name assignments name = Some a ↔
        ∃ i, assignments !! i = Some a ∧ assignment_name a = name ∧
             ∀ j b, (j < i)%nat → assignments !! j = Some b →
                    assignment_name b ≠ name) ∧
  (get_course_assignment_by_name assignments name = None ↔
   ∀ a, a ∈ assignments → assignment_name a ≠ name).
Proof.
  induction assignments as [|x rest [IHs IHn]]; simpl.
  - split.
    + intros a. split; [done|]. by intros (i & Hi & _).
    + split; [|done]. by intros _ a Ha%elem_of_nil.
  - case_bool_decide as Hx; split.
    + intros a. split.
      * intros [= <-]. exists 0%nat. repeat split; try done. intros j b Hj. lia.
      * intros ([|i] & Hi & Ha & Hmin).
        -- simpl in Hi. by injection Hi as ->.
        -- exfalso. by apply (Hmin 0%nat x); [lia| |].
    + split; [done|]. intros H. exfalso. apply (H x); [apply list_elem_of_here|done].
    + intros a. rewrite IHs. split.
      * intros (i & Hi & Ha & Hmin). exists (S i). repeat split; try done.
        intros [|j] b Hj Hb.
        -- simpl in Hb. by injection Hb as <-.
        -- apply (Hmin j b); [lia|done].
      * intros ([|i] & Hi & Ha & Hmin).
        -- simpl in Hi. injection Hi as ->. done.
        -- exists i. repeat split; try done.
           intros j b Hj Hb. apply (Hmin (S j) b); [lia|done].
    + rewrite IHn. split.
      * intros H a [->|Ha]%elem_of_cons; [done|by apply H].
      * intros H a Ha. apply H. by apply list_elem_of_further.
Qed.

(** A listed course that matches neither the name or the term. *)
Definition other_course (name term : string) (c : option course) : Prop :=
  ∃ c', c = Some c' ∧ ¬ (course_name c' = name ∧ course_term c' = term).

(** X15: [get_course_id] returns the id of the first listed course with
    the given name and term. It raises [TypeError] exactly when a course
    whose page had no header is reached before any match, and returns
    [None] exactly when every listed course has a header and none
    matches. *)
Theorem get_course_id_first_match courses name term :
  (∀ id, get_course_id courses name term = Ok (Some id) ↔
         ∃ i c, courses !! i = Some (Some c) ∧
                course_name c = name ∧ course_term c = term ∧ course_id c = id ∧
                Forall (other_course name term) (take i courses)) ∧
  (∀ e, get_course_id courses name term = Raised e ↔
        e = TypeError ∧
        ∃ i, courses !! i = Some None ∧
             Forall (other_course name term) (take i courses)) ∧
  (get_course_id courses name term = Ok None ↔
   Forall (other_course name term) courses).
Proof.
  induction courses as [|[c|] rest (IHs & IHr & IHn)].
  - simpl. split; [|split].
    + intros id. split; [done|]. by intros (i & c & Hi & _).
    + intros e. split; [done|]. by intros (_ & i & Hi & _).
    + done.
  - cbn [get_course_id].
    destruct (decide (course_name c = name ∧ course_term c = term)) as [[Hn Ht]|Hno].
    + rewrite !bool_decide_eq_true_2 by done. simpl. split; [|split].
      * intros id. split.
        -- intros [= <-]. exists 0%nat, c. repeat split; try done; constructor.
        -- intros ([|i] & c' & Hi & Hn' & Ht' & <- & Hpre).
           ++ simpl in Hi. by injection Hi as ->.
           ++ simpl in Hpre. apply Forall_cons in Hpre as [(c0 & [= <-] & Hc0) _].
              by destruct Hc0.
      * intros e. split; [done|]. intros (_ & [|i] & Hi & Hpre); [done|].
        simpl in Hpre. apply Forall_cons in Hpre as [(c0 & [= <-] & Hc0) _].
        by destruct Hc0.
      * split; [done|]. intros [(c0 & [= <-] & Hc0) _]%Forall_cons.
        by destruct Hc0.
    + assert (bool_decide (course_name c = name) && bool_decide (course_term c = term)
              = false) as ->.
      { apply andb_false_iff. rewrite !bool_decide_eq_false.
        destruct (decide (course_name c = name)); [right|left]; tauto. }
      assert (other_course name term (Some c)) as Hoc by (by exists c).
      split; [|split].
      * intros id. rewrite IHs. split.
        -- intros (i & c' & Hi & ? & ? & ? & Hpre). exists (S i), c'.
           repeat split; try done. simpl. by constructor.
        -- intros ([|i] & c' & Hi & Hn' & Ht' & Hid & Hpre).
           ++ simpl in Hi. injection Hi as ->. tauto.
           ++ exists i, c'. repeat split; try done.
              simpl in Hpre. by apply Forall_cons in Hpre as [_ ?].
      * intros e. rewrite IHr. split.
        -- intros (-> & i & Hi & Hpre). split; [done|]. exists (S i).
           split; [done|]. simpl. by constructor.
        -- intros (-> & [|i] & Hi & Hpre); [done|]. split; [done|].
           exists i. split; [done|].
           simpl in Hpre. by apply Forall_cons in Hpre as [_ ?].
      * rewrite IHn. split.
        -- intros H. by constructor.
        -- by intros [_ ?]%Forall_cons.
  - cbn [get_course_id]. split; [|split].
    + intros id. split; [done|]. intros ([|i] & c & Hi & _ & _ & _ & Hpre); [done|].
      simpl in Hpre. by apply Forall_cons in Hpre as [(c0 & [=] & _) _].
    + intros e. split.
      * intros [= <-]. split; [done|]. exists 0%nat. split; [done|]. simpl. constructor.
      * by intros (-> & _).
    + split; [done|]. by intros [(c0 & [=] & _) _]%Forall_cons.
Qed.

(** *** [get_course_grades] *)

(** A record of [get_assignment_grades(..., simplified=True)]. The keys
    ["sid"] and ["email"] are subscripted; ["graded"] and ["score"] are
    read with [.get] and may be missing. *)
Record grade_record : Type := mkGradeRecord {
  record_sid : string;
  record_email : string;
  record_score : option string;
  record_graded : option bool
}.

Section get_course_grades.
Context {grade : Type}.
(** [gradescope.raw_util.robust_float], which is not part of these
    sources. *)
Context (robust_float : option string → grade).
(** [get_assignment_grades(course_id, assignment_id, simplified=True)] for
    the course at hand, as a function of the assignment id. *)
Context (get_assignment_grades : string → list grade_record).

(** The body of the loop over the records of one assignment. *)
Definition add_grade (only_graded use_email : bool) (assignment_name : string)
  (grades : gmap string (gmap string grade)) (record : grade_record)
  : gmap string (gmap string grade) :=
  if only_graded && negb (default false (record_graded record)) then grades
  else
    let student_id := record_sid record in
    let student_id := if use_email then record_email record else student_id in
    let grade := robust_float (record_score record) in
    let grades := <[student_id := default ∅ (grades !! student_id)]> grades in
    <[student_id := <[assignment_name := grade]> (default ∅ (grades !! student_id))]>
      grades.

(** [get_course_grades], given the list [get_course_assignments(course_id)]. *)
Definition get_course_grades (gradescope_assignments : list assignment)
  (only_graded use_email : bool) : gmap string (gmap string grade) :=
  foldl (λ grades assignment,
           let assignment_name := assignment_name assignment in
           let assignment_grades :=
             get_assignment_grades (assignment_id assignment) in
           foldl (add_grade only_graded use_email assignment_name)
             grades assignment_grades)
        ∅ gradescope_assignments.

(** A record that the loop does not skip. *)
Definition counted (only_graded : bool) (record : grade_record) : Prop :=
  only_graded = false ∨ record_graded record = Some true.

#[global] Instance counted_dec only_graded record :
  Decision (counted only_graded record).
Proof. unfold counted. apply _. Defined.

(** The key a record is filed under. *)
Definition student_key (use_email : bool) (record : grade_record) : string :=
  if use_email then record_email record else record_sid record.

(** The writes [grades[student][assignment_name] = grade] in the order in
    which the two loops make them. *)
Definition writes (gradescope_assignments : list assignment)
  (only_graded use_email : bool) : list (string * string * grade) :=
  a ← gradescope_assignments;
  r ← filter (counted only_graded) (get_assignment_grades (assignment_id a));
  [(student_key use_email r, assignment_name a, robust_float (record_score r))].

(** [grades[student][name] = g], creating [grades[student]] when missing. *)
Definition write (grades : gmap string (gmap string grade))
  (w : string * string * grade) : gmap string (gmap string grade) :=
  <[w.1.1 := <[w.1.2 := w.2]> (default ∅ (grades !! w.1.1))]> grades.

Lemma add_grade_write only_graded use_email name grades record :
  add_grade only_graded use_email name grades record =
  if decide (counted only_graded record)
  then write grades
         (student_key use_email record, name, robust_float (record_score record))
  else grades.
Proof.
  unfold add_grade, write, student_key. simpl.
  destruct (decide (counted only_graded record)) as [Hc|Hc].
  - assert (only_graded && negb (default false (record_graded record)) = false)
      as ->.
    { destruct Hc as [->| ->]; [done|]. apply andb_false_r. }
    by rewrite lookup_insert_eq, insert_insert_eq.
  - assert (only_graded && negb (default false (record_graded record)) = true)
      as ->; [|done].
    unfold counted in Hc.
    destruct only_graded, (record_graded record) as [[]|]; try done; tauto.
Qed.

Lemma get_course_grades_writes gradescope_assignments only_graded use_email :
  get_course_grades gradescope_assignments only_graded use_email =
  foldl write ∅ (writes gradescope_assignments only_graded use_email).
Proof.
  unfold get_course_grades, writes. generalize (∅ : gmap string (gmap string grade)).
  induction gradescope_assignments as [|a rest IH]; intros grades; [done|].
  cbn [foldl mbind list_bind]. rewrite foldl_app, <- IH. f_equal. clear IH.
  generalize (get_assignment_grades (assignment_id a)). intros records.
  revert grades. induction records as [|r records IH]; intros grades; [done|].
  cbn [foldl]. rewrite add_grade_write, filter_cons.
  destruct (decide (counted only_graded r)); [|by apply IH].
  cbn [mbind list_bind app foldl]. by apply IH.
Qed.

Lemma lookup_write grades w s name :
  write grades w !! s ≫= (.!! name) =
  if decide (w.1 = (s, name)) then Some w.2 else grades !! s ≫= (.!! name).
Proof.
  destruct w as [[s' name'] g]. unfold write. simpl.
  destruct (decide (s' = s)) as [->|Hs].
  - rewrite lookup_insert_eq. simpl.
    destruct (decide (name' = name)) as [->|Hn].
    + rewrite lookup_insert_eq. by rewrite decide_True.
    + rewrite lookup_insert_ne by done. rewrite decide_False by congruence.
      by destruct (grades !! s).
  - rewrite lookup_insert_ne by done. by rewrite decide_False by congruence.
Qed.

Lemma lookup_foldl_write grades ws s name :
  foldl write grades ws !! s ≫= (.!! name) =
  match last (filter (λ w, w.1 = (s, name)) ws) with
  | Some w => Some w.2
  | None => grades !! s ≫= (.!! name)
  end.
Proof.
  induction ws as [|w ws IH] using rev_ind; [done|].
  rewrite foldl_snoc, lookup_write, filter_app, filter_cons, filter_nil.
  destruct (decide (w.1 = (s, name))).
  - by rewrite last_snoc.
  - by rewrite app_nil_r.
Qed.

Lemma dom_foldl_write grades ws :
  dom (foldl write grades ws) = dom grades ∪ list_to_set (ws.*1.*1).
Proof.
  induction ws as [|w ws IH] using rev_ind; [simpl; set_solver|].
  rewrite foldl_snoc, !fmap_app, list_to_set_app_L. unfold write at 1.
  rewrite dom_insert_L, IH. simpl. set_solver.
Qed.

Lemma foldl_write_nonempty grades ws s inner :
  (∀ s inner, grades !! s = Some inner → inner ≠ ∅) →
  foldl write grades ws !! s = Some inner → inner ≠ ∅.
Proof.
  intros Hinit. revert s inner.
  induction ws as [|w ws IH] using rev_ind; [done|]. intros s inner.
  rewrite foldl_snoc. unfold write at 1.
  destruct (decide (w.1.1 = s)) as [->|Hs].
  - rewrite lookup_insert_eq. intros [= <-]. apply insert_non_empty.
  - rewrite lookup_insert_ne by done. apply IH.
Qed.

Lemma elem_of_writes gradescope_assignments only_graded use_email s name g :
  (s, name, g) ∈ writes gradescope_assignments only_graded use_email ↔
  ∃ a r, a ∈ gradescope_assignments ∧
         r ∈ get_assignment_grades (assignment_id a) ∧
         counted only_graded r ∧
         student_key use_email r = s ∧ assignment_name a = name ∧
         robust_float (record_score r) = g.
Proof.
  unfold writes. rewrite list_elem_of_bind. split.
  - intros (a & (r & Hw & Hr)%list_elem_of_bind & Ha).
    apply list_elem_of_singleton in Hw as [= -> -> ->].
    apply list_elem_of_filter in Hr as [Hc Hr]. by exists a, r.
  - intros (a & r & Ha & Hr & Hc & <- & <- & <-). exists a. split; [|done].
    apply list_elem_of_bind. exists r. split; [by apply list_elem_of_singleton|].
    by apply list_elem_of_filter.
Qed.

(** X16: who appears in the result of [get_course_grades], and under which
    assignments. A student key is in the result exactly when some record
    of some listed assignment is filed under it and is not skipped (with
    [only_graded], a record is skipped unless its ["graded"] is true); the
    dictionary of a student is never empty; and a stored grade is
    [robust_float] of the score of such a record of an assignment with
    that name. *)
Theorem get_course_grades_members gradescope_assignments only_graded use_email :
  let grades := get_course_grades gradescope_assignments only_graded use_email in
  (∀ s, s ∈ dom grades ↔
        ∃ a r, a ∈ gradescope_assignments ∧
               r ∈ get_assignment_grades (assignment_id a) ∧
               counted only_graded r ∧ student_key use_email r = s) ∧
  (∀ s inner, grades !! s = Some inner → inner ≠ ∅) ∧
  (∀ s inner name g,
     grades !! s = Some inner → inner !! name = Some g →
     ∃ a r, a ∈ gradescope_assignments ∧
            r ∈ get_assignment_grades (assignment_id a) ∧
            counted only_graded r ∧ student_key use_email r = s ∧
            assignment_name a = name ∧ robust_float (record_score r) = g).
Proof.
  cbv zeta. rewrite get_course_grades_writes. split; [|split].
  - intros s. rewrite dom_foldl_write, dom_empty_L, (left_id_L ∅ (∪)).
    rewrite elem_of_list_to_set, list_elem_of_fmap. split.
    + intros ([s' name] & -> & ([[s'' name'] g] & [= <- <-] & Hw)%list_elem_of_fmap).
      apply elem_of_writes in Hw as (a & r & Ha & Hr & Hc & Hs & _). by exists a, r.
    + intros (a & r & Ha & Hr & Hc & Hs).
      exists (s, assignment_name a). split; [done|]. apply list_elem_of_fmap.
      exists (s, assignment_name a, robust_float (record_score r)).
      split; [done|]. apply elem_of_writes. by exists a, r.
  - intros s inner. apply foldl_write_nonempty. intros s' inner'.
    by rewrite lookup_empty.
  - intros s inner name g Hs Hname.
    pose proof (lookup_foldl_write ∅
      (writes gradescope_assignments only_graded use_email) s name) as Hl.
    rewrite Hs in Hl. simpl in Hl. rewrite Hname in Hl.
    destruct (last _) as [[[s' name'] g']|] eqn:Hlast.
    + injection Hl as ->. apply last_Some_elem_of in Hlast.
      apply list_elem_of_filter in Hlast as [[= -> ->] Hw].
      by apply elem_of_writes.
    + by rewrite lookup_empty in Hl.
Qed.

(** X17: the last write wins. The grade stored for a student under an
    assignment name is the one of the last record, in the order of the
    listing and of each assignment's records, that is filed under that
    student for an assignment of that name; nothing is stored when there
    is no such record. Assignments that share a name overwrite each
    other's grades. *)
Theorem get_course_grades_last_write gradescope_assignments only_graded use_email
    s name :
  get_course_grades gradescope_assignments only_graded use_email !! s
    ≫= (.!! name) =
  snd <$> last (filter (λ w, w.1 = (s, name))
                  (writes gradescope_assignments only_graded use_email)).
Proof.
  rewrite get_course_grades_writes, lookup_foldl_write.
  destruct (last _); [done|]. by rewrite lookup_empty.
Qed.

End get_course_grades.

(** Two assignments share the name HW1; the second student's record is
    not graded. *)
Example get_course_grades_sample :
  let listing := [mkAssignment "1" "HW1" "/a/1"; mkAssignment "2" "HW1" "/a/2"] in
  let fetch (assignment_id : string) :=
    if bool_decide (assignment_id = "1") then
      [mkGradeRecord "s1" "e1" (Some "5") (Some true);
       mkGradeRecord "s2" "e2" (Some "3") (Some false)]
    else [mkGradeRecord "s1" "e1" (Some "7") (Some true)] in
  let grades := get_course_grades (λ score, score) fetch listing true true in
  grades !! "e1" ≫= (.!! "HW1") = Some (Some "7") ∧
  grades !! "e2" = None ∧ grades !! "s1" = None ∧
  get_course_grades (λ score, score) fetch listing false false !! "s2"
    ≫= (.!! "HW1") = Some (Some "3").
Proof. repeat split; vm_compute; reflexivity. Qed.

(** *** [find_section_and_grader] *)

(** [re.match('[a-zA-Z]+', text)] succeeds exactly when the first character
    of [text] is an ASCII letter. *)
Definition letters_match (text : string) : bool :=
  match text with
  | String c _ =>
      let n := Ascii.N_of_ascii c in
      ((65 <=? n) && (n <=? 90) || (97 <=? n) && (n <=? 122))%N
  | EmptyString => false
  end.

Section find_section_and_grader.
(** Whether [re.match('\d', text)] succeeds, that is whether [text] starts
    with a decimal digit in the sense of the [re] module. *)
Context (digit_match : string → bool).

(** [find_section_and_grader], given the texts of the spans found in the
    row. *)
Definition find_section_and_grader (spans : list string) : string * string :=
  foldl (λ '(section, grader) text,
           if letters_match text then (section, text)
           else if digit_match text then (text, grader)
           else (section, grader))
        ("", "") spans.

(** X18: of the spans of a row, the last one that starts with a letter is
    the grader, and the last one that starts with a digit and not with a
    letter is the section; each is the empty string when there is no such
    span, and spans starting with neither are ignored. *)
Theorem find_section_and_grader_last spans :
  find_section_and_grader spans =
  (default "" (last (filter (λ text, letters_match text = false ∧
                                     digit_match text = true) spans)),
   default "" (last (filter (λ text, letters_match text = true) spans))).
Proof.
  unfold find_section_and_grader.
  induction spans as [|text spans IH] using rev_ind; [done|].
  rewrite foldl_snoc, IH, !filter_app, !filter_cons, !filter_nil. clear IH.
  destruct (decide (letters_match text = true)) as [Hl|Hl];
    destruct (decide (letters_match text = false ∧ digit_match text = true))
      as [[Hl' Hd]|Hn].
  - congruence.
  - by rewrite Hl, last_snoc, app_nil_r.
  - by rewrite Hl', Hd, last_snoc, app_nil_r.
  - apply not_true_is_false in Hl. rewrite Hl, !app_nil_r.
    destruct (digit_match text); [|done]. by destruct Hn.
Qed.

End find_section_and_grader.

(** *** [invite_many] *)

(** The members of the enumeration [GradescopeRole]. *)
Inductive GradescopeRole : Type := STUDENT | INSTRUCTOR | TA | READER.

(** A value of the payload: a name or an email, or the role. *)
Inductive field_value : Type :=
| Text (s : string)
| Role (r : GradescopeRole).

(** [payload[key] = value] on an [OrderedDict]: the value of an existing
    key is replaced where it stands, a new key is added at the end. *)
Fixpoint set_item (payload : list (string * field_value)) (key : string)
  (value : field_value) : list (string * field_value) :=
  match payload with
  | [] => [(key, value)]
  | (k, v) :: rest =>
      if bool_decide (k = key) then (k, value) :: rest
      else (k, v) :: set_item rest key value
  end.

(** ["students[{}][name]".format(counter)] and the same for the email. *)
Definition name_key (counter : nat) : string :=
  "students[" +:+ pretty counter +:+ "][name]".
Definition email_key (counter : nat) : string :=
  "students[" +:+ pretty counter +:+ "][email]".

(** The payload and the counter after the loop over [users]. *)
Definition build_payload (users : list (string * string))
  : list (string * field_value) * nat :=
  foldl (λ '(payload, counter) '(email, name),
           let payload := set_item payload (name_key counter) (Text name) in
           let payload := set_item payload (email_key counter) (Text email) in
           (payload, S counter))
        ([], 0%nat) users.

(** [invite_many]; [request endpoint data] is the status code of the
    response of [gradescope.api.request]. *)
Definition invite_many (request : string → list (string * field_value) → Z)
  (course_id : Z) (role : GradescopeRole) (users : list (string * string))
  : bool :=
  let '(payload, counter) := build_payload users in
  let payload := set_item payload "role" (Role role) in
  bool_decide
    (request ("courses/" +:+ pretty course_id +:+ "/memberships/many") payload
     = 200%Z).

(** The two form fields of the user at position [i]. *)
Definition user_fields (i : nat) (user : string * string)
  : list (string * field_value) :=
  [(name_key i, Text user.2); (email_key i, Text user.1)].

Lemma list_ascii_of_string_append s1 s2 :
  String.list_ascii_of_string (s1 +:+ s2) =
  String.list_ascii_of_string s1 ++ String.list_ascii_of_string s2.
Proof. induction s1 as [|c s1 IH]; [done|]. simpl. by rewrite IH. Qed.

Lemma list_ascii_of_string_inj s1 s2 :
  String.list_ascii_of_string s1 = String.list_ascii_of_string s2 → s1 = s2.
Proof.
  intros H. rewrite <- (String.string_of_list_ascii_of_string s1),
    <- (String.string_of_list_ascii_of_string s2). by rewrite H.
Qed.

Lemma name_key_inj i j : name_key i = name_key j → i = j.
Proof.
  unfold name_key. intros H%(inj (String.append _)).
  apply (f_equal String.list_ascii_of_string) in H.
  rewrite !list_ascii_of_string_append in H.
  apply app_inv_tail, list_ascii_of_string_inj in H.
  by apply (inj pretty).
Qed.

Lemma email_key_inj i j : email_key i = email_key j → i = j.
Proof.
  unfold email_key. intros H%(inj (String.append _)).
  apply (f_equal String.list_ascii_of_string) in H.
  rewrite !list_ascii_of_string_append in H.
  apply app_inv_tail, list_ascii_of_string_inj in H.
  by apply (inj pretty).
Qed.

Lemma name_key_email_key i j : name_key i ≠ email_key j.
Proof.
  unfold name_key, email_key. intros H%(inj (String.append _)).
  apply (f_equal String.list_ascii_of_string) in H.
  rewrite !list_ascii_of_string_append in H.
  change (String.list_ascii_of_string "][name]") with
    (String.list_ascii_of_string "][nam" ++ String.list_ascii_of_string "e]") in H.
  change (String.list_ascii_of_string "][email]") with
    (String.list_ascii_of_string "][emai" ++ String.list_ascii_of_string "l]") in H.
  rewrite !app_assoc in H. by apply app_inj_2 in H as [_ ?].
Qed.

Lemma set_item_fresh payload key value :
  key ∉ payload.*1 → set_item payload key value = payload ++ [(key, value)].
Proof.
  induction payload as [|[k v] payload IH]; [done|]. simpl.
  intros Hk. rewrite bool_decide_eq_false_2.
  - rewrite IH; [done|]. intros ?. apply Hk. by apply list_elem_of_further.
  - intros ->. apply Hk. apply list_elem_of_here.
Qed.

Lemma elem_of_user_fields_keys (users : list (string * string)) start key :
  key ∈ (mjoin (imap (λ i, user_fields (start + i)) users)).*1 →
  ∃ i, (start ≤ i < start + length users)%nat ∧
       (key = name_key i ∨ key = email_key i).
Proof.
  revert start. induction users as [|u users IH]; intros start.
  - by intros ?%elem_of_nil.
  - cbn [imap mjoin list_join user_fields app fmap list_fmap fst length].
    rewrite Nat.add_0_r, !elem_of_cons. intros [->|[->|Hin]].
    + exists start. split; [lia|by left].
    + exists start. split; [lia|by right].
    + destruct (IH (S start)) as (i & Hi & Hk).
      * erewrite imap_ext; [exact Hin|]. intros j x _. simpl.
        by rewrite Nat.add_succ_r.
      * exists i. split; [lia|done].
Qed.

Lemma foldl_payload users payload counter :
  (∀ key, key ∈ payload.*1 →
          ∃ i, (i < counter)%nat ∧ (key = name_key i ∨ key = email_key i)) →
  foldl (λ '(payload, counter) '(email, name),
           let payload := set_item payload (name_key counter) (Text name) in
           let payload := set_item payload (email_key counter) (Text email) in
           (payload, S counter))
        (payload, counter) users =
  (payload ++ mjoin (imap (λ i, user_fields (counter + i)) users),
   (counter + length users)%nat).
Proof.
  revert payload counter.
  induction users as [|[email name] users IH]; intros payload counter Hkeys.
  - simpl. by rewrite app_nil_r, Nat.add_0_r.
  - cbn [foldl]. rewrite (set_item_fresh payload (name_key counter)).
    2: { intros (i & Hi & [?%name_key_inj|?%name_key_email_key])%Hkeys;
           [lia|done]. }
    rewrite (set_item_fresh _ (email_key counter)).
    2: { rewrite fmap_app, elem_of_app. simpl. rewrite list_elem_of_singleton.
         intros [(i & Hi & [Hk|?%email_key_inj])%Hkeys|Hk]; [| lia |].
         - by apply (name_key_email_key i counter).
         - by apply (name_key_email_key counter counter). }
    rewrite IH.
    + cbn [imap mjoin list_join user_fields length]. simpl.
      rewrite Nat.add_0_r, <- !app_assoc. simpl.
      rewrite (imap_ext ((λ i, user_fields (counter + i)) ∘ S)
                 (λ i, user_fields (S (counter + i))) users)
        by (intros j x _; simpl; by rewrite Nat.add_succ_r).
      f_equal. lia.
    + intros key. rewrite !fmap_app, !elem_of_app. simpl.
      rewrite !list_elem_of_singleton.
      intros [[(i & Hi & Hk)%Hkeys| ->]| ->].
      * exists i. split; [lia|done].
      * exists counter. split; [lia|by left].
      * exists counter. split; [lia|by right].
Qed.

(** X19: [invite_many] sends every user. The form data handed to the
    request hold, in the order of [users], the name field and the email
    field of each user under its position, then the role: no assignment to
    the payload replaces an earlier field. The result is whether the
    response has status 200. *)
Theorem invite_many_sends_every_user request course_id role users :
  invite_many request course_id role users =
  bool_decide
    (request ("courses/" +:+ pretty course_id +:+ "/memberships/many")
       (mjoin (imap user_fields users) ++ [("role", Role role)]) = 200%Z).
Proof.
  unfold invite_many, build_payload.
  rewrite foldl_payload by (by intros key ?%elem_of_nil). simpl.
  rewrite set_item_fresh; [done|].
  intros (i & _ & [Hk|Hk])%(elem_of_user_fields_keys users 0); discriminate Hk.
Qed.

(** Three users: seven fields, the role last. *)
Example invite_many_sample :
  invite_many (λ _ data, if bool_decide (length data = 7%nat) then 200 else 500)%Z
    42 TA [("a@x.org", "Ann"); ("b@x.org", "Bob"); ("c@x.org", "Cy")] = true ∧
  name_key 12 = "students[12][name]".
Proof. split; vm_compute; reflexivity. Qed.

(** *** [get_courses] *)

(** [s.split(sep)] for a separator of one character: the pieces between
    the occurrences of [sep], empty pieces included; never an empty
    list. *)
Fixpoint split_on (sep : Ascii.ascii) (s : string) : list string :=
  match s with
  | EmptyString => [EmptyString]
  | String c s' =>
      if bool_decide (c = sep) then EmptyString :: split_on sep s'
      else match split_on sep s' with
           | piece :: pieces => String c piece :: pieces
           | [] => [String c EmptyString]
           end
  end.

(** [l[-1]]; [IndexError] on an empty list. *)
Definition subscript_last (l : list string) : outcome string :=
  match last l with
  | Some x => Ok x
  | None => Raised IndexError
  end.

(** [filter(lambda s: s, ...)] keeps the hrefs that are neither [None] nor
    empty. *)
Definition truthy_hrefs (hrefs : list (option string)) : list string :=
  omap (λ href, match href with
                | Some EmptyString | None => None
                | Some s => Some s
                end) hrefs.

(** [get_courses(by_name=False)], given the [href] attribute (or [None])
    of each anchor of class [courseBox] on the account page. *)
Fixpoint course_ids_of (hrefs : list string) : outcome (list string) :=
  match hrefs with
  | [] => Ok []
  | href :: rest =>
      course_id ← subscript_last (split_on "/"%char href);
      course_ids ← course_ids_of rest;
      Ok (course_id :: course_ids)
  end.

Definition get_courses (hrefs : list (option string)) : outcome (list string) :=
  course_ids_of (truthy_hrefs hrefs).

Lemma split_on_last sep s :
  ∃ id, last (split_on sep s) = Some id ∧
        (sep ∉ String.list_ascii_of_string id) ∧
        ((split_on sep s = [id] ∧ s = id) ∨
         (∃ pre, (2 ≤ length (split_on sep s))%nat ∧
                 s = pre +:+ String sep id)).
Proof.
  induction s as [|c s (id & Hlast & Hsep & Hs)].
  - exists EmptyString. simpl. split; [done|]. split; [|by left].
    by intros ?%elem_of_nil.
  - simpl. case_bool_decide as Hc.
    + subst c. exists id. destruct (split_on sep s) as [|piece pieces] eqn:E;
        [done|].
      split; [by rewrite last_cons, Hlast|]. split; [done|]. right.
      destruct Hs as [[_ ->]|(pre & _ & ->)].
      * exists EmptyString. split; [simpl; lia|done].
      * exists (String sep pre). split; [simpl; lia|done].
    + destruct (split_on sep s) as [|piece pieces] eqn:E; [done|].
      destruct Hs as [[[= -> ->] ->]|(pre & Hlen & ->)].
      * exists (String c id). split; [done|]. split; [|by left].
        simpl. rewrite elem_of_cons. intros [?|?]; [by subst|done].
      * exists id. destruct pieces as [|piece' pieces]; [simpl in Hlen; lia|].
        split; [done|]. split; [done|]. right. exists (String c pre).
        split; [simpl; lia|done].
Qed.

Lemma course_ids_of_spec hrefs :
  ∃ ids, course_ids_of hrefs = Ok ids ∧
         Forall2 (λ href id,
                    ("/"%char ∉ String.list_ascii_of_string id) ∧
                    (href = id ∨ ∃ pre, href = pre +:+ String "/"%char id))
                 hrefs ids.
Proof.
  induction hrefs as [|href rest (ids & Hids & Hall)]; [by exists []|].
  destruct (split_on_last "/"%char href) as (id & Hlast & Hsep & Hs).
  exists (id :: ids). cbn [course_ids_of]. unfold subscript_last.
  rewrite Hlast. cbn [mbind outcome_bind]. rewrite Hids.
  split; [done|]. constructor; [|done]. split; [done|].
  destruct Hs as [[_ ?]|(pre & _ & ?)]; [by left|right; by exists pre].
Qed.

(** X20: [get_courses] never raises on [href.split("/")[-1]]. It returns
    one course id for each anchor whose [href] is neither missing nor
    empty, in order; the id contains no ["/"] and is what follows the last
    ["/"] of the href, or the whole href when it has none. *)
Theorem get_courses_ids hrefs :
  ∃ ids, get_courses hrefs = Ok ids ∧
         Forall2 (λ href id,
                    ("/"%char ∉ String.list_ascii_of_string id) ∧
                    (href = id ∨ ∃ pre, href = pre +:+ String "/"%char id))
                 (truthy_hrefs hrefs) ids.
Proof. apply course_ids_of_spec. Qed.

(** An href that ends with a slash gives the empty id. *)
Example get_courses_sample :
  get_courses [Some "/courses/702597"; None; Some ""; Some "709120";
               Some "/courses/1/"] = Ok ["702597"; "709120"; ""].
Proof. vm_compute. reflexivity. Qed.

(** *** [get_course_assignments] *)

(** A row of the assignments table, as far as the loop reads it: whether
    it has the key ["is_published"], and its ["id"], ["title"] and
    ["url"]. *)
Record table_row : Type := mkTableRow {
  row_is_published : bool;
  row_id : string;
  row_title : string;
  row_url : string
}.

(** [l[i]] for a non-negative [i]. *)
Definition subscript_nth (l : list string) (i : nat) : outcome string :=
  match l !! i with
  | Some x => Ok x
  | None => Raised IndexError
  end.

(** [get_course_assignments], given the rows of the table. *)
Fixpoint get_course_assignments (assignment_rows : list table_row)
  : outcome (list assignment) :=
  match assignment_rows with
  | [] => Ok []
  | row :: rest =>
      if row_is_published row then
        id ← subscript_nth (split_on "_"%char (row_id row)) 1;
        assignments ← get_course_assignments rest;
        Ok (mkAssignment id (row_title row) (row_url row) :: assignments)
      else get_course_assignments rest
  end.

(** The string [s] holds the character [c]. *)
Definition has_char (c : ascii) (s : string) : Prop :=
  c ∈ String.list_ascii_of_string s.

#[global] Instance has_char_dec c s : Decision (has_char c s).
Proof. unfold has_char. apply _. Defined.

Lemma split_on_head sep s :
  ∃ piece pieces, split_on sep s = piece :: pieces ∧ ¬ has_char sep piece ∧
    ((pieces = [] ∧ s = piece) ∨
     (∃ s', s = piece +:+ String sep s' ∧ split_on sep s' = pieces)).
Proof.
  unfold has_char. induction s as [|c s (piece & pieces & Hsplit & Hsep & Hs)].
  - exists EmptyString, []. split; [done|]. split; [|by left].
    by intros ?%elem_of_nil.
  - simpl. case_bool_decide as Hc.
    + subst c. exists EmptyString, (split_on sep s). split; [done|].
      split; [by intros ?%elem_of_nil|]. right. by exists s.
    + rewrite Hsplit. exists (String c piece), pieces. split; [done|]. split.
      * simpl. rewrite elem_of_cons. intros [?|?]; [by subst|done].
      * destruct Hs as [[-> ->]|(s' & -> & Hs')]; [by left|right; by exists s'].
Qed.

Lemma split_on_length sep s :
  (2 ≤ length (split_on sep s))%nat ↔ has_char sep s.
Proof.
  unfold has_char. induction s as [|c s IH].
  - simpl. split; [lia|by intros ?%elem_of_nil].
  - simpl. rewrite elem_of_cons. case_bool_decide as Hc.
    + subst c. split; [by left|]. intros _.
      destruct (split_on_head sep s) as (p & ps & -> & _). simpl. lia.
    + destruct (split_on_head sep s) as (p & ps & Hsplit & _).
      rewrite Hsplit in *. simpl in *. rewrite IH. split; [by right|].
      by intros [?|?]; [subst|].
Qed.

Lemma append_cons c s t : String c s +:+ t = String c (s +:+ t).
Proof. reflexivity. Qed.

Lemma append_empty_r s : s +:+ EmptyString = s.
Proof.
  induction s as [|c s IH]; [reflexivity|]. by rewrite append_cons, IH.
Qed.

(** The second piece of a split: what stands between the first and the
    second occurrence of the separator, or after the first when there is
    no second. *)
Lemma split_on_second sep s :
  match split_on sep s !! 1%nat with
  | Some second =>
      ¬ has_char sep second ∧
      ∃ first rest, ¬ has_char sep first ∧
        s = first +:+ String sep second +:+ rest ∧
        (rest = EmptyString ∨ ∃ rest', rest = String sep rest')
  | None => ¬ has_char sep s
  end.
Proof.
  destruct (split_on_head sep s) as (first & pieces & Hsplit & Hfirst & Hs).
  rewrite Hsplit. simpl. destruct Hs as [[-> ->]|(s' & -> & Hs')]; [done|].
  destruct (split_on_head sep s') as (second & pieces' & Hsplit' & Hsecond & Hs'').
  rewrite Hsplit' in Hs'. subst pieces. simpl. split; [done|].
  exists first. destruct Hs'' as [[-> ->]|(s'' & -> & _)].
  - exists EmptyString. repeat split; try done; [|by left].
    by rewrite append_cons, append_empty_r.
  - exists (String sep s''). repeat split; try done. right. by exists s''.
Qed.

(** X21: [get_course_assignments] lists the rows that have the key
    ["is_published"], in order, with the row's title and url. It raises
    [IndexError] exactly when the id of such a row has no underscore;
    otherwise the id of each assignment contains no underscore and is the
    part of the row's id after its first underscore, up to the second one
    if there is one. *)
Theorem get_course_assignments_published assignment_rows :
  let published := filter (λ row, row_is_published row = true) assignment_rows in
  (∀ e, get_course_assignments assignment_rows = Raised e ↔
        e = IndexError ∧ ∃ row, row ∈ published ∧ ¬ has_char "_" (row_id row)) ∧
  (∀ assignments,
     get_course_assignments assignment_rows = Ok assignments →
     Forall2 (λ row a,
                assignment_name a = row_title row ∧
                assignment_url a = row_url row ∧
                ¬ has_char "_" (assignment_id a) ∧
                ∃ first rest, ¬ has_char "_" first ∧
                  row_id row = first +:+ String "_" (assignment_id a) +:+ rest ∧
                  (rest = EmptyString ∨ ∃ rest', rest = String "_" rest'))
             published assignments).
Proof.
  cbv zeta. induction assignment_rows as [|row rest [IHr IHs]].
  - split.
    + intros e. split; [done|]. by intros (_ & row & ?%elem_of_nil & _).
    + intros assignments [= <-]. constructor.
  - cbn [get_course_assignments]. rewrite filter_cons.
    destruct (row_is_published row) eqn:Hp.
    + rewrite decide_True by done. unfold subscript_nth.
      pose proof (split_on_second "_" (row_id row)) as Hsecond.
      destruct (split_on "_" (row_id row) !! 1%nat) as [id|];
        cbn [mbind outcome_bind].
      * destruct Hsecond as (Hid & first & rest' & Hfirst & Hrow & Hrest).
        assert (has_char "_" (row_id row)) as Hhas.
        { rewrite Hrow. unfold has_char.
          rewrite !list_ascii_of_string_append. simpl.
          rewrite elem_of_app, elem_of_cons. right. by left. }
        split.
        -- intros e. destruct (get_course_assignments rest) as [l|e'|];
             cbn [mbind outcome_bind].
           ++ split; [done|].
              intros (-> & r & [->|Hr]%elem_of_cons & Hno); [done|].
              assert (@Ok (list assignment) l = Raised IndexError) as Habs;
                [|done]. apply IHr. eauto.
           ++ split.
              ** intros [= <-].
                 destruct (proj1 (IHr e') eq_refl) as (-> & r & Hr & Hno).
                 split; [done|]. exists r.
                 split; [by apply list_elem_of_further|done].
              ** intros (-> & _).
                 by destruct (proj1 (IHr e') eq_refl) as [-> _].
           ++ split; [done|].
              intros (-> & r & [->|Hr]%elem_of_cons & Hno); [done|].
              assert (@OutOfFuel (list assignment) = Raised IndexError) as Habs;
                [|done]. apply IHr. eauto.
        -- intros assignments.
           destruct (get_course_assignments rest) as [l|e'|];
             cbn [mbind outcome_bind]; try done.
           intros [= <-]. constructor; [|by apply IHs]. simpl.
           repeat split; try done. by exists first, rest'.
      * split; [|done]. intros e. split.
        -- intros [= <-]. split; [done|]. exists row.
           split; [apply list_elem_of_here|done].
        -- by intros (-> & _).
    + rewrite decide_False by done. split; [apply IHr|apply IHs].
Qed.

(** *** Sample runs *)

(** A course page without header stands before the course asked for. *)
Example get_course_id_sample :
  let listing := [Some (mkCourse "CS310" "S2024" "702597"); None;
                  Some (mkCourse "CS310" "F2024" "709120")] in
  get_course_id listing "CS310" "S2024" = Ok (Some "702597") ∧
  get_course_id listing "CS310" "F2024" = Raised TypeError ∧
  get_course_id [Some (mkCourse "CS310" "S2024" "702597")] "CS101" "S2024" =
    Ok None.
Proof. repeat split; vm_compute; reflexivity. Qed.

(** A title row without the key, a published row, and an id without
    underscore. *)
Example get_course_assignments_sample :
  get_course_assignments
    [mkTableRow false "" "" "";
     mkTableRow true "assignment_3922368" "Project 4" "/courses/1/assignments/2"] =
    Ok [mkAssignment "3922368" "Project 4" "/courses/1/assignments/2"] ∧
  get_course_assignments [mkTableRow true "3922368" "Project 4" "/a"] =
    Raised IndexError.
Proof. split; vm_compute; reflexivity. Qed.

(** Section "003" and grader "Ann", with ASCII digits for the digit test. *)
Example find_section_and_grader_sample :
  let digit_match (text : string) :=
    match text with
    | String c _ => (48 <=? Ascii.N_of_ascii c)%N && (Ascii.N_of_ascii c <=? 57)%N
    | EmptyString => false
    end in
  find_section_and_grader digit_match ["001"; "Bob"; "003"; "-"; "Ann"; ""] =
    ("003", "Ann").
Proof. vm_compute. reflexivity. Qed.

End Macros.
